(** * A shallow embedding of the Scheme interpreter core (Project-Scheme/scheme.py)

    The development follows the layout of the source file: S-expression
    values, environment frames, procedures, special forms, the two
    evaluators ([scheme_eval] as first defined, and [scheme_optimized_eval],
    to which the module finally rebinds the name [scheme_eval]).

    Frames are mutable host objects shared between closures, so they live in
    an explicit store and are referred to by their index; every operation is
    a store-passing computation that may raise a host exception. *)

From stdpp Require Import gmap strings list fin_maps.

(** ** S-expressions *)

(** A frame reference: the position of the frame in the store. *)
Abbreviation frame := nat (only parsing).

(** Modelled from the spec: the S-expression representation built by the
    reader module ([Pair], [nil], symbols and the self-evaluating atoms), which
    is imported by scheme.py but is not among the sources.  Symbols are
    compared by name; a proper list is a chain of [Pair]s ended by [Nil].
    The three procedure classes are those of scheme.py itself; the host
    function of a primitive is referred to by its name. *)
Inductive value : Type :=
| Nil
| Sym (name : string)
| Num (n : Z)
| Bool (b : bool)
| Str (s : string)
| NoneV
| Pair (first second : value)
| PrimitiveProcedure (fn : string) (use_env : bool)
| LambdaProcedure (formals body : value) (env : frame)
| MuProcedure (formals body : value).

(** class Evaluate: what an evaluation in tail position hands back instead
    of a value.  [Val] is any other host result. *)
Inductive result : Type :=
| Val (v : value)
| Evaluate (expr : value) (env : frame).

(** Every [raise SchemeError(...)] of the source, tagged by its site. *)
Inductive scheme_error : Type :=
| UnknownIdentifier (symbol : string)   (* "unknown identifier: {0}" *)
| MalformedList                          (* "malformed list: {0}" *)
| CannotCall                             (* "cannot call: {0}" *)
| ChildFrameLengths                      (* bare raise in make_child_frame *)
| PrimitiveTypeError                     (* SchemeError(x) around a host TypeError *)
| NonSymbol                              (* "Non-symbol: {}" *)
| ElseMustBeLast                         (* "else must be last" *)
| BadBindingsList                        (* "bad bindings list in let form" *)
| BadlyFormedExpression                  (* "badly formed expression: " *)
| TooFewOperands                         (* "too few operands in form" *)
| TooManyOperands                        (* "too many operands in form" *)
| BadFormals.                            (* the bare raises of check_formals *)

(** Host exceptions: the interpreter's own error class and the two host
    errors that ill-shaped data provoke. *)
Inductive exn : Type :=
| SchemeError (e : scheme_error)
| TypeError
| AttributeError
| NotAValue.   (* an Evaluate object used where a Scheme value is stored *)

(** ** The store and the computations over it *)

(** class Frame: [self.bindings] and [self.parent]. *)
Record Frame : Type := mkFrame {
  bindings : gmap string value;
  parent : option frame
}.

Abbreviation store := (list Frame) (only parsing).

Inductive outcome (A : Type) : Type :=
| Ok (a : A) (st : store)
| Raise (e : exn) (st : store)
| OutOfFuel.
Arguments Ok {A} a st.
Arguments Raise {A} e st.
Arguments OutOfFuel {A}.

Definition M (A : Type) : Type := store -> outcome A.

Definition ret {A} (a : A) : M A := fun st => Ok a st.
Definition raise {A} (e : exn) : M A := fun st => Raise e st.
Definition bind {A B} (c : M A) (k : A -> M B) : M B :=
  fun st =>
    match c st with
    | Ok a st' => k a st'
    | Raise e st' => Raise e st'
    | OutOfFuel => OutOfFuel
    end.

Notation "x <- c1 ;; c2" := (bind c1 (fun x => c2))
  (at level 100, c1 at next level, right associativity).
Notation "c1 ;; c2" := (bind c1 (fun _ => c2))
  (at level 100, right associativity).

(** ** Host operations on S-expressions *)

(** Modelled from the spec: the attributes and the length of the reader's
    Pair and nil.  [x.first] and [x.second]: only a Pair has these
    attributes. *)
Definition first (x : value) : M value :=
  match x with Pair a _ => ret a | _ => raise AttributeError end.
Definition second (x : value) : M value :=
  match x with Pair _ d => ret d | _ => raise AttributeError end.

Fixpoint proper_length (x : value) : option nat :=
  match x with
  | Nil => Some 0
  | Pair _ d => S <$> proper_length d
  | _ => None
  end.

(** [len(x)]: the length of a proper list; a host TypeError on a chain that
    does not end in nil. *)
Definition len (x : value) : M nat :=
  match proper_length x with
  | Some n => ret n
  | None => raise TypeError
  end.

Fixpoint scheme_listp (x : value) : bool :=
  match x with
  | Nil => true
  | Pair _ d => scheme_listp d
  | _ => false
  end.

(** Modelled from the spec: the type predicates and the truth test of the
    primitives module, which is imported by scheme.py but is not among the
    sources.  The atoms are the booleans, the numbers, the symbols and nil;
    everything but the false value is true. *)
Definition scheme_symbolp (x : value) : bool :=
  match x with Sym _ => true | _ => false end.
Definition scheme_stringp (x : value) : bool :=
  match x with Str _ => true | _ => false end.
Definition scheme_booleanp (x : value) : bool :=
  match x with Bool _ => true | _ => false end.
Definition scheme_numberp (x : value) : bool :=
  match x with Num _ => true | _ => false end.
Definition scheme_nullp (x : value) : bool :=
  match x with Nil => true | _ => false end.
Definition scheme_atomp (x : value) : bool :=
  scheme_booleanp x || scheme_numberp x || scheme_symbolp x || scheme_nullp x.

(** [val is not False] and [val is False]. *)
Definition scheme_true (val : value) : bool :=
  match val with Bool false => false | _ => true end.
Definition scheme_false (val : value) : bool :=
  match val with Bool false => true | _ => false end.

Definition is_none (x : value) : bool :=
  match x with NoneV => true | _ => false end.
Definition is_pair (x : value) : bool :=
  match x with Pair _ _ => true | _ => false end.

(** scheme.py, [self_evaluating]. *)
Definition self_evaluating (expr : value) : bool :=
  scheme_atomp expr || scheme_stringp expr || is_none expr.

(** scheme.py, [scheme_procedurep]: [isinstance(x, Procedure)]. *)
Definition scheme_procedurep (x : value) : bool :=
  match x with
  | PrimitiveProcedure _ _ | LambdaProcedure _ _ _ | MuProcedure _ _ => true
  | _ => false
  end.

(** The Scheme list of a host list. *)
Fixpoint slist (l : list value) : value :=
  match l with
  | [] => Nil
  | x :: l' => Pair x (slist l')
  end.

(** ** Environments: class Frame *)

(** [Frame(parent)]: a fresh frame with no bindings. *)
Definition new_Frame (parent : option frame) : M frame :=
  fun st => Ok (List.length st) (st ++ [mkFrame ∅ parent]).

Fixpoint lookup_chain (k : nat) (st : store) (self : frame) (symbol : string)
  : outcome value :=
  match k with
  | 0 => OutOfFuel
  | S k' =>
      match st !! self with
      | None => Raise AttributeError st
      | Some fr =>
          match bindings fr !! symbol with
          | Some v => Ok v st
          | None =>
              match parent fr with
              | Some p => lookup_chain k' st p symbol
              | None => Raise (SchemeError (UnknownIdentifier symbol)) st
              end
          end
      end
  end.

(** [Frame.lookup]: own bindings first, then the parent chain.  The chain of
    a store whose parents were all allocated before their children has at
    most as many frames as the store. *)
Definition frame_lookup (self : frame) (symbol : string) : M value :=
  fun st => lookup_chain (S (List.length st)) st self symbol.

(** [Frame.define]: [self.bindings[symbol] = value].  The bindings are keyed
    by symbols; the one other key the callers can pass after [check_formals]
    is a Pair, which the host dictionary does not take as a key. *)
Definition frame_define (self : frame) (symbol : value) (v : value) : M unit :=
  fun st =>
    match st !! self with
    | None => Raise AttributeError st
    | Some fr =>
        match symbol with
        | Sym s => Ok tt (<[self := mkFrame (<[s := v]> (bindings fr)) (parent fr)]> st)
        | _ => Raise TypeError st
        end
    end.

(** The while loop of [make_child_frame]. *)
Fixpoint bind_formals (child : frame) (formals vals : value) : M unit :=
  match formals with
  | Nil => ret tt
  | Pair a d =>
      match vals with
      | Nil => ret tt
      | Pair b e => frame_define child a b ;; bind_formals child d e
      | _ => raise AttributeError
      end
  | _ =>
      match vals with
      | Nil => ret tt
      | _ => raise AttributeError
      end
  end.

(** [Frame.make_child_frame]. *)
Definition make_child_frame (self : frame) (formals vals : value) : M frame :=
  child <- new_Frame (Some self) ;;
  nf <- len formals ;;
  nv <- len vals ;;
  if Nat.eqb nf nv then
    bind_formals child formals vals ;;
    ret child
  else raise (SchemeError ChildFrameLengths).

(** ** Checking the structure of Scheme programs *)

(** [check_form(expr, min, max)]; [None] stands for the default
    [max=float('inf')]. *)
Definition check_form (expr : value) (min : nat) (max : option nat) : M unit :=
  if negb (scheme_listp expr) then raise (SchemeError BadlyFormedExpression)
  else
    length <- len expr ;;
    if length <? min then raise (SchemeError TooFewOperands)
    else
      match max with
      | Some mx => if mx <? length then raise (SchemeError TooManyOperands) else ret tt
      | None => ret tt
      end.

(** One pass over [formals.first] in [check_formals]: the membership test in
    [par], the symbol test, [par.add]; [next] is the rest of the loop.  The
    set holds symbols only, so a value that is not a symbol is not in it and
    is rejected by the symbol test. *)
Definition check_formal (par : gset string) (x : value)
    (next : gset string -> M unit) : M unit :=
  match x with
  | Sym s =>
      if bool_decide (s ∈ par) then raise (SchemeError BadFormals)
      else next ({[s]} ∪ par)
  | _ => raise (SchemeError BadFormals)
  end.

(** The while loop of [check_formals].  When [formals.first] is a Pair the
    loop goes on inside that Pair and leaves the enclosing list. *)
Fixpoint check_formals_loop (par : gset string) (formals : value) : M unit :=
  match formals with
  | Nil => ret tt
  | Pair (Pair a d as inner) _ =>
      n <- len inner ;;
      if n <? 3 then raise (SchemeError BadFormals)
      else check_formal par a (fun par' => check_formals_loop par' d)
  | Pair x rest => check_formal par x (fun par' => check_formals_loop par' rest)
  | _ => raise AttributeError
  end.

(** [check_formals]: [par = set()], then the loop. *)
Definition check_formals (formals : value) : M unit :=
  check_formals_loop ∅ formals.

(** ** Procedures, special forms and the evaluators *)

Definition as_result (c : M value) : M result := v <- c ;; ret (Val v).

(** The list [python_args] that [PrimitiveProcedure.apply] builds from the
    Scheme list [args]. *)
Fixpoint python_args (args : value) : M (list value) :=
  match args with
  | Nil => ret []
  | Pair a d => l <- python_args d ;; ret (a :: l)
  | _ => raise AttributeError
  end.

Definition is_else (x : value) : bool :=
  match x with Sym s => String.eqb s "else"%string | _ => false end.

Section Interpreter.

(** The host functions of the primitive procedures come from the primitives
    module, which is not among the sources: [primitive_fn fn args env] is the
    call of the host function on the arguments, with the environment as
    last argument when the primitive asks for it. *)
Variable primitive_fn : string -> list value -> option frame -> M value.

(** [LambdaProcedure.make_call_frame] and [MuProcedure.make_call_frame]. *)
Definition make_call_frame (self : value) (args : value) (env : frame) : M frame :=
  match self with
  | LambdaProcedure formals _ self_env => make_child_frame self_env formals args
  | MuProcedure formals _ => make_child_frame env formals args
  | _ => raise AttributeError
  end.

(** [PrimitiveProcedure.apply]. *)
Definition primitive_apply (fn : string) (use_env : bool) (args : value)
    (env : frame) : M value :=
  l <- python_args args ;;
  fun st =>
    match primitive_fn fn l (if use_env then Some env else None) st with
    | Raise TypeError st' => Raise (SchemeError PrimitiveTypeError) st'
    | o => o
    end.

Section Forms.

(** The module-level name [scheme_eval], as the special forms and the
    procedures find it when they run. *)
Variable scheme_eval : value -> frame -> bool -> M result.

(** A call [scheme_eval(expr, env)] whose result is then kept or tested
    as a Scheme value. *)
Definition eval_value (expr : value) (env : frame) : M value :=
  r <- scheme_eval expr env false ;;
  match r with
  | Val v => ret v
  | Evaluate _ _ => raise NotAValue
  end.

Fixpoint eval_all_loop (first_ rest : value) (env : frame) : M result :=
  match rest with
  | Nil => scheme_eval first_ env true
  | Pair a d => scheme_eval first_ env false ;; eval_all_loop a d env
  | _ => scheme_eval first_ env false ;; raise AttributeError
  end.

(** [eval_all]. *)
Definition eval_all (expressions : value) (env : frame) : M result :=
  match expressions with
  | Nil => ret (Val NoneV)
  | _ =>
      first_ <- first expressions ;;
      rest <- second expressions ;;
      eval_all_loop first_ rest env
  end.

(** [Pair.map] and [nil.map] with the function of [Procedure.eval_call]. *)
Fixpoint map_eval (arg_exprs : value) (env : frame) : M value :=
  match arg_exprs with
  | Nil => ret Nil
  | Pair a d =>
      mapped <- eval_value a env ;;
      if scheme_nullp d || is_pair d then
        r <- map_eval d env ;; ret (Pair mapped r)
      else raise TypeError
  | _ => raise AttributeError
  end.

(** [UserDefinedProcedure.apply] and [PrimitiveProcedure.apply]. *)
Definition procedure_apply (self : value) (args : value) (env : frame) : M result :=
  match self with
  | PrimitiveProcedure fn use_env => as_result (primitive_apply fn use_env args env)
  | LambdaProcedure _ body _ | MuProcedure _ body =>
      new_env <- make_call_frame self args env ;;
      eval_all body new_env
  | _ => raise AttributeError
  end.

Definition scheme_apply (procedure : value) (args : value) (env : frame) : M result :=
  if negb (scheme_procedurep procedure) then raise (SchemeError CannotCall)
  else procedure_apply procedure args env.

(** [Procedure.eval_call]. *)
Definition eval_call (self : value) (arg_exprs : value) (env : frame) : M result :=
  args <- map_eval arg_exprs env ;;
  scheme_apply self args env.

Definition do_lambda_form (expressions : value) (env : frame) : M value :=
  check_form expressions 2 None ;;
  formals <- first expressions ;;
  check_formals formals ;;
  body <- second expressions ;;
  ret (LambdaProcedure formals body env).

Definition do_mu_form (expressions : value) (env : frame) : M value :=
  check_form expressions 2 None ;;
  formals <- first expressions ;;
  check_formals formals ;;
  body <- second expressions ;;
  ret (MuProcedure formals body).

Definition do_define_form (expressions : value) (env : frame) : M value :=
  check_form expressions 2 None ;;
  target <- first expressions ;;
  match target with
  | Sym _ =>
      check_form expressions 2 (Some 2) ;;
      rest <- second expressions ;;
      e <- first rest ;;
      v <- eval_value e env ;;
      frame_define env target v ;;
      ret target
  | Pair (Sym _ as function_name) form =>
      body <- second expressions ;;
      v <- do_lambda_form (Pair form body) env ;;
      frame_define env function_name v ;;
      ret function_name
  | _ => raise (SchemeError NonSymbol)
  end.

Definition do_quote_form (expressions : value) (env : frame) : M value :=
  check_form expressions 1 (Some 1) ;;
  first expressions.

Definition do_begin_form (expressions : value) (env : frame) : M result :=
  check_form expressions 1 None ;;
  eval_all expressions env.

Definition do_if_form (expressions : value) (env : frame) : M result :=
  check_form expressions 2 (Some 3) ;;
  test <- first expressions ;;
  pred <- eval_value test env ;;
  if scheme_true pred then
    rest <- second expressions ;;
    conseq <- first rest ;;
    scheme_eval conseq env true
  else
    n <- len expressions ;;
    if n =? 3 then
      rest <- second expressions ;;
      rest2 <- second rest ;;
      alt <- first rest2 ;;
      scheme_eval alt env true
    else ret (Val NoneV).

Fixpoint and_loop (first_ rest : value) (env : frame) : M result :=
  match rest with
  | Nil => scheme_eval first_ env true
  | Pair a d =>
      pred <- eval_value first_ env ;;
      if scheme_false pred then ret (Val (Bool false))
      else and_loop a d env
  | _ =>
      pred <- eval_value first_ env ;;
      if scheme_false pred then ret (Val (Bool false))
      else raise AttributeError
  end.

Definition do_and_form (expressions : value) (env : frame) : M result :=
  n <- len expressions ;;
  if n =? 0 then ret (Val (Bool true))
  else
    first_ <- first expressions ;;
    rest <- second expressions ;;
    and_loop first_ rest env.

Fixpoint or_loop (first_ second_ : value) (env : frame) : M result :=
  match second_ with
  | Nil => scheme_eval first_ env true
  | Pair a d =>
      pred <- eval_value first_ env ;;
      if scheme_true pred then ret (Val pred)
      else or_loop a d env
  | _ =>
      pred <- eval_value first_ env ;;
      if scheme_true pred then ret (Val pred)
      else raise AttributeError
  end.

Definition do_or_form (expressions : value) (env : frame) : M result :=
  n <- len expressions ;;
  if n =? 0 then ret (Val (Bool false))
  else
    first_ <- first expressions ;;
    second_ <- second expressions ;;
    or_loop first_ second_ env.

(** The while loop of [do_cond_form], with its counter [i]. *)
Fixpoint cond_loop (expressions : value) (i num_clauses : nat) (env : frame)
  : M result :=
  match expressions with
  | Nil => ret (Val NoneV)
  | Pair clause rest =>
      check_form clause 1 None ;;
      test_expr <- first clause ;;
      if is_else test_expr then
        if i <? num_clauses - 1 then raise (SchemeError ElseMustBeLast)
        else
          body <- second clause ;;
          do_begin_form body env
      else
        test <- eval_value test_expr env ;;
        if scheme_true test then
          body <- second clause ;;
          if scheme_nullp body then ret (Val test)
          else do_begin_form body env
        else cond_loop rest (S i) num_clauses env
  | _ => raise AttributeError
  end.

Definition do_cond_form (expressions : value) (env : frame) : M result :=
  num_clauses <- len expressions ;;
  cond_loop expressions 0 num_clauses env.

(** The while loop of [make_let_frame]: [formals] and [values] grow at
    the front. *)
Fixpoint let_loop (bindings formals values : value) (env : frame)
  : M (value * value) :=
  match bindings with
  | Nil => ret (formals, values)
  | Pair start rest =>
      check_form start 0 (Some 2) ;;
      name <- first start ;;
      tl <- second start ;;
      e <- first tl ;;
      v <- eval_value e env ;;
      let_loop rest (Pair name formals) (Pair v values) env
  | _ => raise AttributeError
  end.

Definition make_let_frame (bindings : value) (env : frame) : M frame :=
  if negb (scheme_listp bindings) then raise (SchemeError BadBindingsList)
  else
    fv <- let_loop bindings Nil Nil env ;;
    check_formals (fst fv) ;;
    make_child_frame env (fst fv) (snd fv).

Definition do_let_form (expressions : value) (env : frame) : M result :=
  check_form expressions 2 None ;;
  bindings <- first expressions ;;
  let_env <- make_let_frame bindings env ;;
  body <- second expressions ;;
  eval_all body let_env.

(** The table [SPECIAL_FORMS], with the entry that the dynamic-scope
    section adds. *)
Definition SPECIAL_FORMS (name : string) : option (value -> frame -> M result) :=
  if String.eqb name "and"%string then Some do_and_form
  else if String.eqb name "begin"%string then Some do_begin_form
  else if String.eqb name "cond"%string then Some do_cond_form
  else if String.eqb name "define"%string then Some (fun e env => as_result (do_define_form e env))
  else if String.eqb name "if"%string then Some do_if_form
  else if String.eqb name "lambda"%string then Some (fun e env => as_result (do_lambda_form e env))
  else if String.eqb name "let"%string then Some do_let_form
  else if String.eqb name "or"%string then Some do_or_form
  else if String.eqb name "quote"%string then Some (fun e env => as_result (do_quote_form e env))
  else if String.eqb name "mu"%string then Some (fun e env => as_result (do_mu_form e env))
  else None.

Definition special_form (x : value) : option (value -> frame -> M result) :=
  match x with
  | Sym name => SPECIAL_FORMS name
  | _ => None
  end.

(** The treatment of a combination: the text after the atom cases of
    [scheme_eval], which is also the body of the while loop of
    [scheme_optimized_eval]. *)
Definition eval_combination (expr : value) (env : frame) : M result :=
  if negb (scheme_listp expr) then raise (SchemeError MalformedList)
  else
    first_ <- first expr ;;
    rest <- second expr ;;
    match special_form first_ with
    | Some handler => handler rest env
    | None =>
        procedure <- eval_value first_ env ;;
        if negb (scheme_procedurep procedure) then raise (SchemeError CannotCall)
        else eval_call procedure rest env
    end.

End Forms.

(** [scheme_eval] as the file first defines it: plain recursion, third
    argument ignored.  The name [scheme_eval] inside the special forms is
    this function, as in the module without its last rebinding. *)
Fixpoint scheme_plain_eval (n : nat) (expr : value) (env : frame) (_ : bool)
  : M result :=
  match expr with
  | Sym s => as_result (frame_lookup env s)
  | _ =>
      if self_evaluating expr then ret (Val expr)
      else
        match n with
        | 0 => fun _ => OutOfFuel
        | S n' => eval_combination (scheme_plain_eval n') expr env
        end
  end.

(** The while loop of [scheme_optimized_eval]; [step] is its body. *)
Fixpoint trampoline (step : value -> frame -> M result) (k : nat) (r : result)
  : M result :=
  match r with
  | Val _ => ret r
  | Evaluate expr env =>
      match k with
      | 0 => fun _ => OutOfFuel
      | S k' => r' <- step expr env ;; trampoline step k' r'
      end
  end.

(** [scheme_optimized_eval]; the name [scheme_eval] inside the special
    forms is this function, as the module binds it in the end. *)
Fixpoint scheme_optimized_eval (n : nat) (expr : value) (env : frame) (tail : bool)
  : M result :=
  match expr with
  | Sym s => as_result (frame_lookup env s)
  | _ =>
      if self_evaluating expr then ret (Val expr)
      else if tail then ret (Evaluate expr env)
      else
        match n with
        | 0 => fun _ => OutOfFuel
        | S n' =>
            trampoline (eval_combination (scheme_optimized_eval n')) n
              (Evaluate expr env)
        end
  end.

(** [scheme_eval = scheme_optimized_eval], the last binding of the name. *)
Definition scheme_eval := scheme_optimized_eval.

End Interpreter.

(** ** Auxiliary notions used in the statements *)

(** What a computation answers, whatever the store it leaves. *)
Definition answer {A} (o : outcome A) : option (A + exn) :=
  match o with
  | Ok a _ => Some (inl a)
  | Raise e _ => Some (inr e)
  | OutOfFuel => None
  end.

(** The Scheme list of the symbols with the given names. *)
Definition symbols (names : list string) : value := slist (Sym <$> names).

(** The bindings that the loop of [make_child_frame] leaves when it has
    defined the names in order: a later definition of a name replaces an
    earlier one. *)
Definition bind_all (b : gmap string value) (names : list string)
    (vals : list value) : gmap string value :=
  foldl (fun m p => <[p.1 := p.2]> m) b (zip names vals).

(** Every parent recorded in the store is a frame of the store. *)
Definition store_closed (st : store) : Prop :=
  forall f fr p, st !! f = Some fr -> parent fr = Some p -> p < List.length st.

(** In the frame [child] of [st], each formal is bound to the value at its
    own position. *)
Definition binds_positionwise (formals vals : list value) (child : frame)
    (st : store) : Prop :=
  forall i s v,
    formals !! i = Some (Sym s) -> vals !! i = Some v ->
    frame_lookup child s st = Ok v st.

(** ** A small instance to run the interpreter on

    Four arithmetic primitives on integers and a global frame that binds
    them; any other call of a host function is a host TypeError. *)
Definition demo_numbers (l : list value) : option (list Z) :=
  mapM (fun v => match v with Num n => Some n | _ => None end) l.

Definition demo_primitive_fn (fn : string) (args : list value)
    (env : option frame) : M value :=
  match demo_numbers args with
  | None => raise TypeError
  | Some zs =>
      if String.eqb fn "+"%string then ret (Num (foldr Z.add 0%Z zs))
      else if String.eqb fn "*"%string then ret (Num (foldr Z.mul 1%Z zs))
      else
        match zs with
        | [a; b] =>
            if String.eqb fn "-"%string then ret (Num (a - b))
            else if String.eqb fn "="%string then ret (Bool (Z.eqb a b))
            else raise TypeError
        | _ => raise TypeError
        end
  end.

Definition demo_global_frame : Frame :=
  mkFrame
    (<["+"%string := PrimitiveProcedure "+" false]>
       (<["*"%string := PrimitiveProcedure "*" false]>
          (<["-"%string := PrimitiveProcedure "-" false]>
             (<["="%string := PrimitiveProcedure "=" false]> ∅))))
    None.

Definition demo_store : store := [demo_global_frame].

(** A store with two call sites under the global frame: frame 1 binds [x]
    to 1 and frame 2 binds [x] to 2. *)
Definition two_sites_store : store :=
  [demo_global_frame;
   mkFrame (<["x"%string := Num 1]> ∅) (Some 0);
   mkFrame (<["x"%string := Num 2]> ∅) (Some 0)].

(** ** Runs of the loops of the special forms *)

(** The expressions [es] are evaluated one after the other in [env], none
    in tail position, and each returns; the store goes from [st] to [st']. *)
Inductive evaluated_in_order (ev : value -> frame -> bool -> M result)
    (env : frame) : list value -> store -> store -> Prop :=
| evaluated_nil st : evaluated_in_order ev env [] st st
| evaluated_cons e es r st st1 st2 :
    ev e env false st = Ok r st1 ->
    evaluated_in_order ev env es st1 st2 ->
    evaluated_in_order ev env (e :: es) st st2.

(** The loop of [do_cond_form] passes over the clauses: each is a proper
    list whose head is not [else] and whose test evaluates to false. *)
Inductive cond_skips (ev : value -> frame -> bool -> M result)
    (env : frame) : list value -> store -> store -> Prop :=
| cond_skips_nil st : cond_skips ev env [] st st
| cond_skips_cons test body clauses st st1 st2 :
    is_else test = false ->
    ev test env false st = Ok (Val (Bool false)) st1 ->
    cond_skips ev env clauses st1 st2 ->
    cond_skips ev env (slist (test :: body) :: clauses) st st2.

(** The entry [(name expr)] of a let binding list. *)
Definition let_entry (b : value * value) : value := slist [b.1; b.2].

(** The binding expressions of a let are evaluated one after the other in
    [env] and yield the values [vs]. *)
Inductive let_values (ev : value -> frame -> bool -> M result)
    (env : frame) : list (value * value) -> store -> list value -> store -> Prop :=
| let_values_nil st : let_values ev env [] st [] st
| let_values_cons name e bs v vs st st1 st2 :
    ev e env false st = Ok (Val v) st1 ->
    let_values ev env bs st1 vs st2 ->
    let_values ev env ((name, e) :: bs) st (v :: vs) st2.

(** [(let ((x 5) (y x)) y)]. *)
Definition let_x_5_y_x : value :=
  slist [Sym "let"%string;
         slist [slist [Sym "x"%string; Num 5]; slist [Sym "y"%string; Sym "x"%string]];
         Sym "y"%string].

(** ** The two evaluators compared *)

(** The expressions both evaluators answer at once: symbols and
    self-evaluating expressions; and the answer they give. *)
Definition atomic (expr : value) : bool :=
  scheme_symbolp expr || self_evaluating expr.

Definition eval_atom (expr : value) (env : frame) : M result :=
  match expr with
  | Sym s => as_result (frame_lookup env s)
  | _ => ret (Val expr)
  end.

(** A computation indexed by its fuel returns [a] and leaves [st'] from
    some amount of fuel on. *)
Definition converges {A} (c : nat -> M A) (st : store) (a : A) (st' : store)
  : Prop :=
  exists m, forall m', m <= m' -> c m' st = Ok a st'.

(** With enough fuel for the loop and for the calls inside it, the while
    loop of [scheme_optimized_eval] takes the result [r] to the value [v]. *)
Definition completes (fn : string -> list value -> option frame -> M value)
    (r : result) (st : store) (v : value) (st' : store) : Prop :=
  exists m, forall m' k, m <= m' -> m <= k ->
    trampoline (eval_combination fn (scheme_optimized_eval fn m')) k r st
    = Ok (Val v) st'.

(** The optimized evaluator takes [expr] in [env] to [v]. *)
Definition reaches (fn : string -> list value -> option frame -> M value)
    (expr : value) (env : frame) (st : store) (v : value) (st' : store) : Prop :=
  if atomic expr then eval_atom expr env st = Ok (Val v) st'
  else completes fn (Evaluate expr env) st v st'.

(** Whatever the evaluator [ev] returns is a value that the optimized
    evaluator reaches too. *)
Definition followed_by_optimized
    (fn : string -> list value -> option frame -> M value)
    (ev : value -> frame -> bool -> M result) : Prop :=
  forall e env b st r st',
    ev e env b st = Ok r st' -> exists v, r = Val v /\ reaches fn e env st v st'.

(** [o], run with enough fuel, returns what [p] returns. *)
Definition sim_eq {A} (p : M A) (o : nat -> M A) : Prop :=
  forall st a st', p st = Ok a st' -> converges o st a st'.

(** [p] returns only values, and [o], run with enough fuel, returns a result
    that the while loop takes to the value of [p]. *)
Definition sim_res (fn : string -> list value -> option frame -> M value)
    (p : M result) (o : nat -> M result) : Prop :=
  forall st rp st',
    p st = Ok rp st' ->
    exists v, rp = Val v /\
      exists r st1, converges o st r st1 /\ completes fn r st1 v st'.

(** [(begin (define (loop n acc) (if (= n 0) acc (loop (- n 1) (+ acc n))))
            (loop 3 0))]. *)
Definition sum_loop_program : value :=
  slist [Sym "begin"%string;
         slist [Sym "define"%string;
                slist [Sym "loop"%string; Sym "n"%string; Sym "acc"%string];
                slist [Sym "if"%string;
                       slist [Sym "="%string; Sym "n"%string; Num 0];
                       Sym "acc"%string;
                       slist [Sym "loop"%string;
                              slist [Sym "-"%string; Sym "n"%string; Num 1];
                              slist [Sym "+"%string; Sym "acc"%string; Sym "n"%string]]]];
         slist [Sym "loop"%string; Num 3; Num 0]].

(** [(if (= 1 1) (+ 2 2) 0)]: the consequent is a call in tail position. *)
Definition if_tail_call_program : value :=
  slist [Sym "if"%string; slist [Sym "="%string; Num 1; Num 1];
         slist [Sym "+"%string; Num 2; Num 2]; Num 0].


(** ** Further notions for the interpreter *)

(** scheme.py, [complete_eval]: an Evaluate is evaluated with the module's
    [scheme_eval], any other result is returned as it is. *)
Definition complete_eval (scheme_eval : value -> frame -> bool -> M result)
    (val : result) : M result :=
  match val with
  | Evaluate expr env => scheme_eval expr env false
  | Val _ => ret val
  end.

(** Every frame of the store was built after its parent. *)
Definition store_wf (st : store) : Prop :=
  forall f fr p, st !! f = Some fr -> parent fr = Some p -> p < f.

(** From [st] to [st'] no frame is lost, no parent changes and no binding
    disappears. *)
Definition store_grows (st st' : store) : Prop :=
  forall f fr,
    st !! f = Some fr ->
    exists fr', st' !! f = Some fr'
                /\ parent fr' = parent fr
                /\ dom (bindings fr) ⊆ dom (bindings fr').

Definition outcome_grows {A} (st : store) (o : outcome A) : Prop :=
  match o with
  | Ok _ st' | Raise _ st' => store_grows st st'
  | OutOfFuel => True
  end.

(** The computation [c] only makes the store grow, whether it returns or
    raises. *)
Definition grows {A} (c : M A) : Prop := forall st, outcome_grows st (c st).

(** The operands [es] of an [and] are evaluated in order and none is the
    false value. *)
Inductive and_passes (ev : value -> frame -> bool -> M result)
    (env : frame) : list value -> store -> store -> Prop :=
| and_passes_nil st : and_passes ev env [] st st
| and_passes_cons e es v st st1 st2 :
    ev e env false st = Ok (Val v) st1 ->
    scheme_false v = false ->
    and_passes ev env es st1 st2 ->
    and_passes ev env (e :: es) st st2.

(** The operands [es] of an [or] are evaluated in order and each is the
    false value. *)
Inductive or_passes (ev : value -> frame -> bool -> M result)
    (env : frame) : list value -> store -> store -> Prop :=
| or_passes_nil st : or_passes ev env [] st st
| or_passes_cons e es st st1 st2 :
    ev e env false st = Ok (Val (Bool false)) st1 ->
    or_passes ev env es st1 st2 ->
    or_passes ev env (e :: es) st st2.

(** * A shallow embedding of the Game of Hog (Project-Hog/hog.py)

    Scores and numbers of rolls are host integers, so they are [Z], with the
    floor division and the modulo of the host ([Z.div] and [Z.modulo] round
    as [//] and [%] do).  A die is a function of no arguments that returns an
    outcome and may change what it returns next, so it is a function on an
    explicit dice state.  A call either returns, fails an [assert], or is
    cut off because one of the unbounded [while] loops was given too little
    fuel. *)

Inductive run (A : Type) : Type :=
| Returns (a : A)
| AssertionError
| NoFuel.
Arguments Returns {A} a.
Arguments AssertionError {A}.
Arguments NoFuel {A}.

#[global] Instance run_ret : MRet run := fun A a => Returns a.

#[global] Instance run_bind : MBind run := fun A B k c =>
  match c with
  | Returns a => k a
  | AssertionError => AssertionError
  | NoFuel => NoFuel
  end.

Section Hog.
Local Open Scope Z_scope.

(** [from dice import four_sided, six_sided]: the module is not part of the
    sources, the two dice are kept abstract. *)
Variable dice_state : Type.

Definition die : Type := dice_state -> Z * dice_state.

Variables four_sided six_sided : die.

(** GOAL_SCORE = 100 *)
Definition GOAL_SCORE : Z := 100.

(** The [while num_rolls > 0] loop of [roll_dice]: [count] is the number of
    iterations left, [total] and [outcome_one] are the two accumulators. *)
Fixpoint roll_dice_loop (count : nat) (dice : die) (total outcome_one : Z)
    (s : dice_state) : Z * Z * dice_state :=
  match count with
  | O => (total, outcome_one, s)
  | S count' =>
      let (value, s') := dice s in
      let outcome_one' := if value =? 1 then outcome_one + 1 else outcome_one in
      roll_dice_loop count' dice (total + value) outcome_one' s'
  end.

(** def roll_dice(num_rolls, dice=six_sided).  The first assert, on the type
    of [num_rolls], holds of every integer. *)
Definition roll_dice (num_rolls : Z) (dice : die) (s : dice_state)
    : run (Z * dice_state) :=
  if negb (0 <? num_rolls) then AssertionError
  else
    let '(total, outcome_one, s') :=
      roll_dice_loop (Z.to_nat num_rolls) dice 0 0 s in
    if 0 <? outcome_one then Returns (0, s') else Returns (total, s').

(** The [while k < n] loop of [is_prime]: it runs [n - k] times unless it
    returns earlier; [count] is the number of iterations left. *)
Fixpoint is_prime_loop (count : nat) (k n : Z) : bool :=
  match count with
  | O => true
  | S count' =>
      if n mod k =? 0 then false else is_prime_loop count' (k + 1) n
  end.

(** def is_prime(n) *)
Definition is_prime (n : Z) : bool :=
  if n <=? 1 then false else is_prime_loop (Z.to_nat (n - 2)) 2 n.

(** The [while not is_prime(k)] loop of [next_prime]. *)
Fixpoint next_prime_loop (fuel : nat) (k : Z) : run Z :=
  match fuel with
  | O => NoFuel
  | S fuel' => if is_prime k then Returns k else next_prime_loop fuel' (k + 1)
  end.

(** def next_prime(n) *)
Definition next_prime (fuel : nat) (n : Z) : run Z :=
  next_prime_loop fuel (n + 1).

(** def take_turn(num_rolls, opponent_score, dice=six_sided) *)
Definition take_turn (fuel : nat) (num_rolls opponent_score : Z) (dice : die)
    (s : dice_state) : run (Z * dice_state) :=
  if negb (0 <=? num_rolls) then AssertionError
  else if negb (num_rolls <=? 10) then AssertionError
  else if negb (opponent_score <? 100) then AssertionError
  else
    '(score, s') ←
      (if num_rolls =? 0 then
         let (x, y) := (opponent_score / 10, opponent_score mod 10) in
         Returns (Z.max x y + 1, s)
       else roll_dice num_rolls dice s);
    if is_prime score then
      k ← next_prime fuel score; Returns (k, s')
    else Returns (score, s').

(** def select_dice(score, opponent_score) *)
Definition select_dice (score opponent_score : Z) : die :=
  if (score + opponent_score) mod 7 =? 0 then four_sided else six_sided.

(** def split_integer (score) *)
Definition split_integer (score : Z) : Z * Z := (score / 10, score mod 10).

(** def is_swap(score0, score1) *)
Definition is_swap (score0 score1 : Z) : bool :=
  let (score0, score1) :=
    if (score0 <? 100) && (score1 <? 100) then (score0, score1)
    else if 100 <? score0 then (score0 - 100, score1)
    else (score0, score1 - 100) in
  let (player_ten, player_one) := split_integer score0 in
  let (opponent_ten, opponent_one) := split_integer score1 in
  (player_ten =? opponent_one) && (player_one =? opponent_ten).

(** def other(player) *)
Definition other (player : Z) : Z := 1 - player.

(** A strategy is a function of two scores that returns a number of rolls. *)
Definition strategy : Type := Z -> Z -> run Z.

(** The body of the [while] loop of [play]: one turn of [player] and the
    swap that may follow it. *)
Definition play_turn (fuel : nat) (strategy0 strategy1 : strategy)
    (score0 score1 player : Z) (s : dice_state) : run (Z * Z * dice_state) :=
  '(score0, score1, s) ←
    (if player =? 0 then
       num_rolls ← strategy0 score0 score1;
       '(turn_score, s') ←
         take_turn fuel num_rolls score1 (select_dice score0 score1) s;
       let score1 := if turn_score =? 0 then score1 + num_rolls else score1 in
       Returns (score0 + turn_score, score1, s')
     else if player =? 1 then
       num_rolls ← strategy1 score1 score0;
       '(turn_score, s') ←
         take_turn fuel num_rolls score0 (select_dice score1 score0) s;
       let score0 := if turn_score =? 0 then score0 + num_rolls else score0 in
       Returns (score0, score1 + turn_score, s')
     else Returns (score0, score1, s));
  if is_swap score0 score1 then Returns (score1, score0, s)
  else Returns (score0, score1, s).

(** The [while score0 < goal and score1 < goal] loop of [play]. *)
Fixpoint play_loop (fuel : nat) (strategy0 strategy1 : strategy)
    (score0 score1 goal player : Z) (s : dice_state)
    : run (Z * Z * dice_state) :=
  if (score0 <? goal) && (score1 <? goal) then
    match fuel with
    | O => NoFuel
    | S fuel' =>
        '(score0, score1, s) ←
          play_turn fuel' strategy0 strategy1 score0 score1 player s;
        play_loop fuel' strategy0 strategy1 score0 score1 goal (other player) s
    end
  else Returns (score0, score1, s).

(** def play(strategy0, strategy1, score0=0, score1=0, goal=GOAL_SCORE) *)
Definition play (fuel : nat) (strategy0 strategy1 : strategy)
    (score0 score1 goal : Z) (s : dice_state) : run (Z * Z * dice_state) :=
  play_loop fuel strategy0 strategy1 score0 score1 goal 0 s.

(** def always_roll(n) *)
Definition always_roll (n : Z) : strategy := fun score opponent_score => Returns n.

(** def winner(strategy0, strategy1) *)
Definition winner (fuel : nat) (strategy0 strategy1 : strategy)
    (s : dice_state) : run (Z * dice_state) :=
  '(score0, score1, s') ← play fuel strategy0 strategy1 0 0 GOAL_SCORE s;
  if score1 <? score0 then Returns (0, s') else Returns (1, s').

(** def bacon_strategy(score, opponent_score, margin=8, num_rolls=5) *)
Definition bacon_strategy (fuel : nat) (score opponent_score margin num_rolls : Z)
    : run Z :=
  let free_bacon := Z.max (opponent_score / 10 + 1) (opponent_score mod 10 + 1) in
  free_bacon ←
    (if is_prime free_bacon then next_prime fuel free_bacon
     else Returns free_bacon);
  let num_rolls := if margin <=? free_bacon then 0 else num_rolls in
  Returns num_rolls.

(** def swap_strategy(score, opponent_score, num_rolls=5) *)
Definition swap_strategy (fuel : nat) (score opponent_score num_rolls : Z)
    : run Z :=
  let (a, b) := (opponent_score / 10 + 1, opponent_score mod 10 + 1) in
  let free_bacon := Z.max a b in
  if a =? b then Returns num_rolls
  else
    score ←
      (if is_prime free_bacon then
         free_bacon ← next_prime fuel free_bacon; Returns (score + free_bacon)
       else Returns (score + free_bacon));
    if is_swap score opponent_score then
      if score <=? opponent_score then Returns 0 else Returns num_rolls
    else Returns num_rolls.

(** def final_strategy(score, opponent_score).  The call of [select_dice] only
    picks one of the two dice and its result is not used. *)
Definition final_strategy (fuel : nat) (score opponent_score : Z) : run Z :=
  let (opponent_ten, opponent_one) :=
    (opponent_score / 10, opponent_score mod 10) in
  let free_bacon := Z.max opponent_ten opponent_one + 1 in
  if (free_bacon + score + opponent_score) mod 7 =? 0 then Returns 0
  else if 4 <? free_bacon then Returns 0
  else if (score + opponent_score) mod 6 =? 0 then
    bacon_strategy fuel score opponent_score 4 4
  else if 10 <? opponent_score - score then
    swap_strategy fuel score opponent_score 6
  else if 90 <? score - opponent_score then
    bacon_strategy fuel score opponent_score 4 4
  else if 76 <? score - opponent_score then Returns 6
  else if 60 <? score - opponent_score then
    bacon_strategy fuel score opponent_score 4 4
  else if 26 <? score - opponent_score then Returns 2
  else if 3 <? score - opponent_score then
    bacon_strategy fuel score opponent_score 4 4
  else if score - opponent_score <? 3 then
    bacon_strategy fuel score opponent_score 6 5
  else Returns 4.

(** The outcomes of [count] successive calls of a die, and the state they
    leave. *)
Fixpoint outcomes (count : nat) (dice : die) (s : dice_state)
    : list Z * dice_state :=
  match count with
  | O => ([], s)
  | S count' =>
      let (value, s') := dice s in
      let (values, s'') := outcomes count' dice s' in
      (value :: values, s'')
  end.

(** A die never shows less than 1. *)
Definition positive_die (dice : die) : Prop := forall s, 1 <= (dice s).1.

(** A strategy that always answers, with a number of rolls that [take_turn]
    accepts. *)
Definition valid_strategy (strat : strategy) : Prop :=
  forall score opponent_score,
    exists num_rolls,
      strat score opponent_score = Returns num_rolls /\ 0 <= num_rolls <= 10.

End Hog.

Arguments roll_dice_loop {dice_state}.
Arguments roll_dice {dice_state}.
Arguments take_turn {dice_state}.
Arguments select_dice {dice_state}.
Arguments play_turn {dice_state}.
Arguments play_loop {dice_state}.
Arguments play {dice_state}.
Arguments winner {dice_state}.
Arguments outcomes {dice_state}.
Arguments positive_die {dice_state}.

(** A die in the manner of the test dice of the docstrings: it cycles through
    [3, 1, 5, 6]; the state is the number of calls made so far. *)
Definition demo_die : die nat :=
  fun i => (nth (i mod 4)%nat [3; 1; 5; 6]%Z 0%Z, S i).

(** A die that always shows 3. *)
Definition threes : die nat := fun i => (3%Z, S i).

(** * Properties *)

(** ** Scheme lists *)

Lemma scheme_listp_slist l : scheme_listp (slist l) = true.
Proof. induction l; simpl; auto. Qed.

Lemma proper_length_slist l : proper_length (slist l) = Some (List.length l).
Proof. induction l as [|x l IH]; simpl; [done|]. by rewrite IH. Qed.

Lemma len_slist l st : len (slist l) st = Ok (List.length l) st.
Proof. unfold len. by rewrite proper_length_slist. Qed.

(** ** The formal-parameter check *)

Lemma check_formals_loop_symbols names : forall par st,
  check_formals_loop par (symbols names) st =
    if bool_decide (NoDup names /\ Forall (fun x => x ∉ par) names)
    then Ok tt st else Raise (SchemeError BadFormals) st.
Proof.
  induction names as [|s names IH]; intros par st.
  - cbn [symbols slist fmap list_fmap check_formals_loop].
    case_bool_decide as H; [done|]. destruct H. split; constructor.
  - cbn [symbols slist fmap list_fmap check_formals_loop check_formal].
    destruct (bool_decide (s ∈ par)) eqn:Hs.
    + apply bool_decide_eq_true_1 in Hs.
      rewrite bool_decide_eq_false_2; [done|]. intros [_ H].
      by apply Forall_cons in H as [H _].
    + apply bool_decide_eq_false_1 in Hs.
      fold (symbols names). rewrite IH.
      destruct (bool_decide (NoDup names /\ _)) eqn:Hd.
      * apply bool_decide_eq_true_1 in Hd. destruct Hd as [Hnd Hpar].
        rewrite Forall_forall in Hpar.
        rewrite bool_decide_eq_true_2; [done|]. split.
        -- constructor; [|done]. intros Hin. apply (Hpar s Hin). set_solver.
        -- constructor; [done|]. apply Forall_forall. intros x Hx Hxp.
           apply (Hpar x Hx). set_solver.
      * apply bool_decide_eq_false_1 in Hd.
        rewrite bool_decide_eq_false_2; [done|]. intros [Hnd Hpar]. apply Hd.
        apply NoDup_cons in Hnd as [Hs' Hnd]. split; [done|].
        apply Forall_cons in Hpar as [_ Hpar]. rewrite Forall_forall in Hpar.
        apply Forall_forall. intros x Hx Hxp. apply elem_of_union in Hxp as [Hxp|Hxp].
        -- apply elem_of_singleton in Hxp. subst. done.
        -- by apply (Hpar x).
Qed.

Lemma check_formals_symbols names st :
  check_formals (symbols names) st =
    if bool_decide (NoDup names) then Ok tt st else Raise (SchemeError BadFormals) st.
Proof.
  unfold check_formals. rewrite check_formals_loop_symbols.
  destruct (bool_decide (NoDup names)) eqn:H.
  - apply bool_decide_eq_true_1 in H. rewrite bool_decide_eq_true_2; [done|]. split; [done|]. apply Forall_forall. set_solver.
  - apply bool_decide_eq_false_1 in H. rewrite bool_decide_eq_false_2; [done|]. tauto.
Qed.

(** ** Frames *)

Lemma bind_all_cons b s names v vals :
  bind_all b (s :: names) (v :: vals) = bind_all (<[s := v]> b) names vals.
Proof. reflexivity. Qed.

Lemma bind_all_notin names : forall b vals x,
  x ∉ names -> bind_all b names vals !! x = b !! x.
Proof.
  induction names as [|s names IH]; intros b vals x Hx; [done|].
  destruct vals as [|v vals]; [done|].
  rewrite bind_all_cons, IH by set_solver.
  apply lookup_insert_ne. set_solver.
Qed.

Lemma bind_all_last names : forall b vals i s v,
  names !! i = Some s -> vals !! i = Some v ->
  (forall j, i < j -> names !! j <> Some s) ->
  bind_all b names vals !! s = Some v.
Proof.
  induction names as [|s0 names IH]; intros b vals i s v Hn Hv Hlast; [done|].
  destruct vals as [|v0 vals]; [done|].
  rewrite bind_all_cons. destruct i as [|i].
  - simpl in Hn, Hv. simplify_eq.
    rewrite bind_all_notin; [apply lookup_insert_eq|].
    intros Hin. apply list_elem_of_lookup in Hin as [j Hj].
    apply (Hlast (S j)); [lia|done].
  - apply (IH _ _ i); [done|done|].
    intros j Hj. apply (Hlast (S j)). lia.
Qed.

Lemma bind_all_nodup names b vals i s v :
  NoDup names -> names !! i = Some s -> vals !! i = Some v ->
  bind_all b names vals !! s = Some v.
Proof.
  intros Hnd Hn Hv. apply (bind_all_last _ _ _ i); [done|done|].
  intros j Hj Hn'. pose proof (NoDup_lookup _ _ _ _ Hnd Hn Hn'). lia.
Qed.

Lemma bind_formals_symbols names : forall vals child st fr,
  List.length names = List.length vals ->
  st !! child = Some fr ->
  bind_formals child (symbols names) (slist vals) st =
    Ok tt (<[child := mkFrame (bind_all (bindings fr) names vals) (parent fr)]> st).
Proof.
  induction names as [|s names IH]; intros vals child st fr Hlen Hfr.
  - destruct vals; [|done]. simpl. unfold ret. f_equal.
    symmetry. apply list_insert_id. by destruct fr.
  - destruct vals as [|v vals]; [done|]. simpl in Hlen.
    cbn [symbols slist fmap list_fmap bind_formals].
    unfold bind at 1. unfold frame_define. rewrite Hfr.
    fold (symbols names).
    erewrite IH; [|lia|apply list_lookup_insert_eq; by eapply lookup_lt_Some].
    cbn [bindings parent]. by rewrite list_insert_insert_eq.
Qed.

(** [make_child_frame] on a list of symbols and as many values. *)
Lemma make_child_frame_symbols self names vals st :
  List.length names = List.length vals ->
  make_child_frame self (symbols names) (slist vals) st =
    Ok (List.length st) (st ++ [mkFrame (bind_all ∅ names vals) (Some self)]).
Proof.
  intros Hlen. unfold make_child_frame, bind, new_Frame, symbols.
  rewrite !len_slist, length_fmap, Hlen, Nat.eqb_refl.
  fold (symbols names).
  erewrite bind_formals_symbols; [|done|by apply list_lookup_middle].
  unfold ret. f_equal. cbn [bindings parent].
  replace (List.length st) with (List.length st + 0) at 1 by lia.
  by rewrite insert_app_r.
Qed.

(** [make_child_frame] on two proper lists of different lengths: the child
    built on entry is left in the store, nothing refers to it. *)
Lemma make_child_frame_lengths self formals vals st :
  List.length formals <> List.length vals ->
  make_child_frame self (slist formals) (slist vals) st =
    Raise (SchemeError ChildFrameLengths) (st ++ [mkFrame ∅ (Some self)]).
Proof.
  intros Hlen. unfold make_child_frame, bind, new_Frame.
  rewrite !len_slist. by apply Nat.eqb_neq in Hlen as ->.
Qed.

Lemma lookup_chain_S k st self symbol :
  lookup_chain (S k) st self symbol =
    match st !! self with
    | None => Raise AttributeError st
    | Some fr =>
        match bindings fr !! symbol with
        | Some v => Ok v st
        | None =>
            match parent fr with
            | Some p => lookup_chain k st p symbol
            | None => Raise (SchemeError (UnknownIdentifier symbol)) st
            end
        end
    end.
Proof. reflexivity. Qed.

Lemma lookup_chain_app k : forall st ext f x,
  store_closed st -> f < List.length st ->
  answer (lookup_chain k (st ++ ext) f x) = answer (lookup_chain k st f x).
Proof.
  induction k as [|k IH]; intros st ext f x Hcl Hf; [done|].
  simpl. rewrite lookup_app_l by done.
  destruct (st !! f) as [fr|] eqn:Hfr; [|done].
  destruct (bindings fr !! x); [done|].
  destruct (parent fr) as [p|] eqn:Hp; [|done].
  apply IH; [done|]. by eapply Hcl.
Qed.

(** A name that the newest frame does not bind is looked up in its parent. *)
Lemma frame_lookup_child_free st b p x :
  store_closed st -> p < List.length st -> b !! x = None ->
  answer (frame_lookup (List.length st) x (st ++ [mkFrame b (Some p)]))
  = answer (frame_lookup p x st).
Proof.
  intros Hcl Hp Hb. unfold frame_lookup.
  rewrite length_app. cbn [List.length]. rewrite Nat.add_1_r.
  rewrite (lookup_chain_S (S (List.length st))).
  rewrite list_lookup_middle by done.
  cbn [bindings parent]. rewrite Hb.
  by apply lookup_chain_app.
Qed.

(** A name that the newest frame binds is found there. *)
Lemma frame_lookup_child_bound st b p x v :
  b !! x = Some v ->
  frame_lookup (List.length st) x (st ++ [mkFrame b (Some p)])
  = Ok v (st ++ [mkFrame b (Some p)]).
Proof.
  intros Hb. unfold frame_lookup. rewrite lookup_chain_S.
  rewrite list_lookup_middle by done. cbn [bindings]. by rewrite Hb.
Qed.

(** ** The evaluator in tail position *)

Lemma scheme_optimized_eval_atom fn n expr env tail :
  scheme_symbolp expr = true \/ self_evaluating expr = true ->
  scheme_optimized_eval fn n expr env tail =
    match expr with
    | Sym s => as_result (frame_lookup env s)
    | _ => ret (Val expr)
    end.
Proof.
  intros H. destruct n, expr; simpl in *; try reflexivity;
    destruct H; discriminate.
Qed.

Lemma scheme_optimized_eval_tail fn n expr env :
  scheme_symbolp expr = false -> self_evaluating expr = false ->
  scheme_optimized_eval fn n expr env true = ret (Evaluate expr env).
Proof.
  intros Hsym Hself.
  destruct n, expr; simpl in *; try discriminate; reflexivity.
Qed.

(** C1. With [tail] set, [scheme_optimized_eval] on an expression that is
    neither a symbol nor self-evaluating returns the suspension
    [Evaluate expr env] and leaves the store alone; on a symbol or a
    self-evaluating expression it returns no suspension, whatever the flag:
    a self-evaluating expression is returned as it is, and a symbol yields
    what [frame_lookup] yields. *)
Theorem scheme_optimized_eval_suspends fn n expr env st :
  (scheme_symbolp expr = false -> self_evaluating expr = false ->
     scheme_optimized_eval fn n expr env true st = Ok (Evaluate expr env) st)
  /\ (scheme_symbolp expr = true \/ self_evaluating expr = true ->
      forall tail,
        (forall e' env' st',
            scheme_optimized_eval fn n expr env tail st <> Ok (Evaluate e' env') st')
        /\ (scheme_symbolp expr = false ->
            scheme_optimized_eval fn n expr env tail st = Ok (Val expr) st)
        /\ (forall s, expr = Sym s ->
            scheme_optimized_eval fn n expr env tail st
              = as_result (frame_lookup env s) st)).
Proof.
  split.
  - intros Hsym Hself. by rewrite scheme_optimized_eval_tail.
  - intros Hatom tail. rewrite scheme_optimized_eval_atom by done.
    split; [|split].
    + intros e' env' st'. destruct expr; try discriminate.
      unfold as_result, bind, ret. destruct (frame_lookup env name st); discriminate.
    + intros Hsym. destruct expr; try discriminate; reflexivity.
    + intros s ->. reflexivity.
Qed.

Lemma scheme_optimized_eval_suspends_witness :
  scheme_optimized_eval demo_primitive_fn 0
    (slist [Sym "+"%string; Num 2; Num 2]) 0 true demo_store
  = Ok (Evaluate (slist [Sym "+"%string; Num 2; Num 2]) 0) demo_store
  /\ scheme_optimized_eval demo_primitive_fn 0 (Num 2) 0 true demo_store
     = Ok (Val (Num 2)) demo_store.
Proof.
  split.
  - apply (proj1 (scheme_optimized_eval_suspends demo_primitive_fn 0
             (slist [Sym "+"%string; Num 2; Num 2]) 0 demo_store)); reflexivity.
  - apply (proj2 (scheme_optimized_eval_suspends demo_primitive_fn 0
             (Num 2) 0 demo_store) (or_intror eq_refl) true); reflexivity.
Defined.

(** ** Lexical and dynamic scope *)

(** C2. The call frame of a LambdaProcedure is a child of the frame the
    procedure was created in; the frame of the call site does not enter the
    result, and a name that is not a formal is looked up from the new frame
    exactly as from the defining frame. *)
Theorem lambda_call_frame_is_child_of_defining_frame
    names body (defining calling : frame) vals (st : store) :
  List.length names = List.length vals ->
  store_closed st -> defining < List.length st ->
  exists b,
    make_call_frame (LambdaProcedure (symbols names) body defining)
      (slist vals) calling st
      = Ok (List.length st) (st ++ [mkFrame b (Some defining)])
    /\ (forall calling',
          make_call_frame (LambdaProcedure (symbols names) body defining)
            (slist vals) calling' st
          = make_call_frame (LambdaProcedure (symbols names) body defining)
              (slist vals) calling st)
    /\ (forall x, x ∉ names ->
          answer (frame_lookup (List.length st) x (st ++ [mkFrame b (Some defining)]))
          = answer (frame_lookup defining x st)).
Proof.
  intros Hlen Hcl Hdef. exists (bind_all ∅ names vals). split; [|split].
  - simpl. by apply make_child_frame_symbols.
  - reflexivity.
  - intros x Hx. apply frame_lookup_child_free; [done|done|].
    by rewrite bind_all_notin.
Qed.

(** C3. The call frame of a MuProcedure is a child of the frame of the call
    site, and a name that is not a formal is looked up from the new frame
    exactly as from the calling frame.  So the procedure [(mu names x)],
    applied at two call sites that bind the free name [x] to two values,
    returns the value of its own call site at each. *)
Theorem mu_call_frame_is_child_of_calling_frame
    fn n names body (calling : frame) vals (st : store) :
  List.length names = List.length vals ->
  store_closed st -> calling < List.length st ->
  (exists b,
    make_call_frame (MuProcedure (symbols names) body) (slist vals) calling st
      = Ok (List.length st) (st ++ [mkFrame b (Some calling)])
    /\ (forall x, x ∉ names ->
          answer (frame_lookup (List.length st) x (st ++ [mkFrame b (Some calling)]))
          = answer (frame_lookup calling x st)))
  /\ (forall x v, x ∉ names ->
        answer (frame_lookup calling x st) = Some (inl v) ->
        answer (procedure_apply fn (scheme_optimized_eval fn n)
                  (MuProcedure (symbols names) (slist [Sym x])) (slist vals) calling st)
        = Some (inl (Val v)))
  /\ (forall x other v1 v2, x ∉ names -> other < List.length st ->
        answer (frame_lookup calling x st) = Some (inl v1) ->
        answer (frame_lookup other x st) = Some (inl v2) ->
        v1 <> v2 ->
        answer (procedure_apply fn (scheme_optimized_eval fn n)
                  (MuProcedure (symbols names) (slist [Sym x])) (slist vals) calling st)
        <> answer (procedure_apply fn (scheme_optimized_eval fn n)
                  (MuProcedure (symbols names) (slist [Sym x])) (slist vals) other st)).
Proof.
  intros Hlen Hcl Hcall.
  assert (Happly : forall c x v, c < List.length st -> x ∉ names ->
            answer (frame_lookup c x st) = Some (inl v) ->
            answer (procedure_apply fn (scheme_optimized_eval fn n)
                      (MuProcedure (symbols names) (slist [Sym x])) (slist vals) c st)
            = Some (inl (Val v))).
  { intros c x v Hc Hx Hv.
    unfold procedure_apply, make_call_frame, bind at 1.
    rewrite make_child_frame_symbols by done.
    cbn [eval_all slist first second bind ret eval_all_loop].
    pose proof (frame_lookup_child_free st (bind_all ∅ names vals) c x Hcl Hc) as Hfree.
    rewrite bind_all_notin in Hfree by done. specialize (Hfree eq_refl).
    rewrite Hv in Hfree.
    rewrite scheme_optimized_eval_atom by (by left).
    unfold as_result, bind, ret.
    destruct (frame_lookup (List.length st) x _); simpl in Hfree; by simplify_eq. }
  split; [|split].
  - exists (bind_all ∅ names vals). split.
    + simpl. by apply make_child_frame_symbols.
    + intros x Hx. apply frame_lookup_child_free; [done|done|].
      by rewrite bind_all_notin.
  - intros x v Hx Hv. by apply Happly.
  - intros x other v1 v2 Hx Hother Hv1 Hv2 Hne.
    rewrite (Happly calling x v1), (Happly other x v2) by done.
    intros Heq. by simplify_eq.
Qed.

Lemma two_sites_store_closed : store_closed two_sites_store.
Proof.
  intros f fr p Hf Hp.
  destruct f as [|[|[|f]]]; simpl in Hf; simplify_eq; simpl in *; simplify_eq; lia.
Qed.

Lemma not_elem_of_singleton_list (x y : string) : x <> y -> x ∉ [y].
Proof. intros Hne Hin. apply list_elem_of_singleton in Hin. done. Qed.

Lemma lambda_call_frame_is_child_of_defining_frame_witness :
  exists b,
    make_call_frame (LambdaProcedure (symbols ["y"%string]) (slist [Sym "x"%string]) 1)
      (slist [Num 7]) 2 two_sites_store
    = Ok 3 (two_sites_store ++ [mkFrame b (Some 1)])
    /\ answer (frame_lookup 3 "x"%string (two_sites_store ++ [mkFrame b (Some 1)]))
       = Some (inl (Num 1)).
Proof.
  destruct (lambda_call_frame_is_child_of_defining_frame
              ["y"%string] (slist [Sym "x"%string]) 1 2 [Num 7] two_sites_store
              eq_refl two_sites_store_closed ltac:(simpl; lia))
    as (b & Hframe & _ & Hfree).
  exists b. split; [exact Hframe|].
  change 3 with (List.length two_sites_store).
  rewrite Hfree; [reflexivity|].
  apply not_elem_of_singleton_list. discriminate.
Defined.

Lemma mu_call_frame_is_child_of_calling_frame_witness :
  answer (procedure_apply demo_primitive_fn (scheme_optimized_eval demo_primitive_fn 0)
            (MuProcedure (symbols ["y"%string]) (slist [Sym "x"%string]))
            (slist [Num 7]) 1 two_sites_store)
  <> answer (procedure_apply demo_primitive_fn (scheme_optimized_eval demo_primitive_fn 0)
            (MuProcedure (symbols ["y"%string]) (slist [Sym "x"%string]))
            (slist [Num 7]) 2 two_sites_store).
Proof.
  apply (proj2 (proj2 (mu_call_frame_is_child_of_calling_frame
           demo_primitive_fn 0 ["y"%string] Nil 1 [Num 7] two_sites_store
           eq_refl two_sites_store_closed ltac:(simpl; lia)))
         "x"%string 2 (Num 1) (Num 2)).
  - apply not_elem_of_singleton_list. discriminate.
  - simpl. lia.
  - reflexivity.
  - reflexivity.
  - discriminate.
Defined.

(** ** Formal parameters *)

(** C6. What [check_formals] does on the list [((a b c) d)], whose first
    element is not a symbol: it returns without raising.  On [(a a)] and on
    [(a 3)] it raises, and on a list of symbols it raises exactly when a
    symbol occurs twice. *)
Theorem check_formals_accepts_nested_list (st : store) :
  check_formals
    (slist [slist [Sym "a"%string; Sym "b"%string; Sym "c"%string]; Sym "d"%string]) st
    = Ok tt st
  /\ check_formals (slist [Sym "a"%string; Sym "a"%string]) st
     = Raise (SchemeError BadFormals) st
  /\ check_formals (slist [Sym "a"%string; Num 3]) st
     = Raise (SchemeError BadFormals) st
  /\ (forall names,
        check_formals (symbols names) st
        = if bool_decide (NoDup names) then Ok tt st
          else Raise (SchemeError BadFormals) st).
Proof.
  split; [reflexivity|]. split; [reflexivity|]. split; [reflexivity|].
  intros names. apply check_formals_symbols.
Qed.

(** ** Child frames *)

Lemma binds_positionwise_nodup names vals p st :
  NoDup names ->
  binds_positionwise (Sym <$> names) vals (List.length st)
    (st ++ [mkFrame (bind_all ∅ names vals) (Some p)]).
Proof.
  intros Hnd i s v Hi Hv.
  apply frame_lookup_child_bound.
  apply (bind_all_nodup _ _ _ i); [done| |done].
  rewrite list_lookup_fmap in Hi.
  destruct (names !! i); simpl in Hi; by simplify_eq.
Qed.

(** C8, as the code has it.  On two proper lists of different lengths
    [make_child_frame] raises and returns no frame (the child it built on
    entry stays behind, unreferenced).  On a list of distinct symbols and as
    many values it returns a new frame whose parent is [self], in which each
    formal is bound to the value at its position; the frames that existed
    are unchanged. *)
Theorem make_child_frame_binds_distinct_formals (self : frame) (st : store) :
  (forall formals vals,
      List.length formals <> List.length vals ->
      make_child_frame self (slist formals) (slist vals) st
      = Raise (SchemeError ChildFrameLengths) (st ++ [mkFrame ∅ (Some self)]))
  /\ (forall names vals,
        List.length names = List.length vals -> NoDup names ->
        exists b,
          make_child_frame self (symbols names) (slist vals) st
          = Ok (List.length st) (st ++ [mkFrame b (Some self)])
          /\ binds_positionwise (Sym <$> names) vals (List.length st)
               (st ++ [mkFrame b (Some self)])).
Proof.
  split.
  - intros formals vals Hlen. by apply make_child_frame_lengths.
  - intros names vals Hlen Hnd. exists (bind_all ∅ names vals). split.
    + by apply make_child_frame_symbols.
    + by apply binds_positionwise_nodup.
Qed.

Lemma make_child_frame_binds_distinct_formals_witness :
  make_child_frame 0 (slist [Sym "a"%string]) (slist [Num 1; Num 2]) demo_store
  = Raise (SchemeError ChildFrameLengths) (demo_store ++ [mkFrame ∅ (Some 0)])
  /\ exists b,
      make_child_frame 0 (symbols ["a"%string; "b"%string]) (slist [Num 1; Num 2]) demo_store
      = Ok 1 (demo_store ++ [mkFrame b (Some 0)])
      /\ frame_lookup 1 "b"%string (demo_store ++ [mkFrame b (Some 0)])
         = Ok (Num 2) (demo_store ++ [mkFrame b (Some 0)]).
Proof.
  split.
  - apply (proj1 (make_child_frame_binds_distinct_formals 0 demo_store)
             [Sym "a"%string] [Num 1; Num 2]).
    simpl. lia.
  - destruct (proj2 (make_child_frame_binds_distinct_formals 0 demo_store)
                ["a"%string; "b"%string] [Num 1; Num 2] eq_refl)
      as (b & Hframe & Hbinds).
    { apply NoDup_cons. split; [apply not_elem_of_singleton_list; discriminate|].
      apply NoDup_singleton. }
    exists b. split; [exact Hframe|].
    apply (Hbinds 1); reflexivity.
Defined.

(** C8, as it is stated, fails on a formal that occurs twice: with formals
    [(a a)] and values [(1 2)] the new frame binds [a] to 2, not to the
    value 1 at the position of its first occurrence. *)
Lemma make_child_frame_repeated_formal :
  exists child st',
    make_child_frame 0 (slist [Sym "a"%string; Sym "a"%string])
      (slist [Num 1; Num 2]) demo_store = Ok child st'
    /\ frame_lookup child "a"%string st' = Ok (Num 2) st'
    /\ ~ binds_positionwise [Sym "a"%string; Sym "a"%string] [Num 1; Num 2] child st'.
Proof.
  eexists _, _. split; [reflexivity|]. split; [reflexivity|].
  intros H. specialize (H 0 "a"%string (Num 1) eq_refl eq_refl).
  vm_compute in H. discriminate.
Qed.

(** ** Entries of a let binding list *)

Lemma check_form_slist l min max st :
  check_form (slist l) min max st =
    if List.length l <? min then Raise (SchemeError TooFewOperands) st
    else match max with
         | Some mx => if mx <? List.length l
                      then Raise (SchemeError TooManyOperands) st else Ok tt st
         | None => Ok tt st
         end.
Proof.
  unfold check_form. rewrite scheme_listp_slist. simpl.
  unfold bind. rewrite len_slist.
  destruct (List.length l <? min); [done|]. destruct max as [mx|]; [|done].
  by destruct (mx <? List.length l).
Qed.

(** C9. An entry of a let binding list that is a proper list of length 0 or
    1 passes [check_form(entry, 0, 2)].  When the loop of [make_let_frame]
    comes to such an entry, with whatever it has collected so far, it fails
    with the host AttributeError of the missing slot, and no SchemeError is
    raised for the entry; so does [make_let_frame] when the entry is the
    first one. *)
Theorem let_entry_short_passes_check_form (l : list value) (st : store) :
  List.length l <= 1 ->
  check_form (slist l) 0 (Some 2) st = Ok tt st
  /\ (forall ev rest formals values env,
        let_loop ev (Pair (slist l) rest) formals values env st
        = Raise AttributeError st)
  /\ (forall ev rest env,
        scheme_listp rest = true ->
        make_let_frame ev (Pair (slist l) rest) env st = Raise AttributeError st).
Proof.
  intros Hl.
  assert (Hcf : check_form (slist l) 0 (Some 2) st = Ok tt st).
  { rewrite check_form_slist. simpl.
    destruct (2 <? List.length l) eqn:H; [|done]. apply Nat.ltb_lt in H. lia. }
  assert (Hloop : forall ev rest formals values env,
             let_loop ev (Pair (slist l) rest) formals values env st
             = Raise AttributeError st).
  { intros ev rest formals values env. cbn [let_loop]. unfold bind at 1. rewrite Hcf.
    destruct l as [|a [|b l]]; [reflexivity|reflexivity|simpl in Hl; lia]. }
  split; [done|]. split; [apply Hloop|].
  intros ev rest env Hrest. unfold make_let_frame.
  cbn [scheme_listp]. rewrite Hrest. cbn [negb]. unfold bind at 1. by rewrite Hloop.
Qed.

Lemma let_entry_short_passes_check_form_witness :
  check_form (slist [Sym "x"%string]) 0 (Some 2) demo_store = Ok tt demo_store
  /\ make_let_frame (scheme_optimized_eval demo_primitive_fn 3)
       (slist [slist [Sym "x"%string]]) 0 demo_store
     = Raise AttributeError demo_store.
Proof.
  destruct (let_entry_short_passes_check_form [Sym "x"%string] demo_store
              ltac:(simpl; lia)) as (Hcf & _ & Hlet).
  split; [exact Hcf|]. apply (Hlet _ Nil 0). reflexivity.
Defined.

(** ** Sequences: [eval_all] and [begin] *)

Lemma eval_all_loop_last ev env init : forall first_ last st st1,
  evaluated_in_order ev env (first_ :: init) st st1 ->
  eval_all_loop ev first_ (slist (init ++ [last])) env st = ev last env true st1.
Proof.
  induction init as [|e init IH]; intros first_ last st st1 Hrun;
    inversion Hrun as [|? ? r ? st' ? Hev Hrest]; subst.
  - inversion Hrest; subst. simpl. unfold bind. by rewrite Hev.
  - simpl. unfold bind at 1. rewrite Hev. by apply IH.
Qed.

(** [eval_all] evaluates all expressions but the last for their effect and
    the last one with the tail flag set. *)
Lemma eval_all_last ev env init last st st1 :
  evaluated_in_order ev env init st st1 ->
  eval_all ev (slist (init ++ [last])) env st = ev last env true st1.
Proof.
  intros Hrun. destruct init as [|e init].
  - inversion Hrun; subst. reflexivity.
  - cbn [app slist eval_all first second]. unfold bind, ret.
    by apply eval_all_loop_last.
Qed.

Lemma do_begin_form_slist ev env body st :
  body <> [] ->
  do_begin_form ev (slist body) env st = eval_all ev (slist body) env st.
Proof.
  intros Hne. unfold do_begin_form, bind. rewrite check_form_slist.
  destruct body; [done|]. reflexivity.
Qed.

Lemma do_begin_form_last ev env init last st st1 :
  evaluated_in_order ev env init st st1 ->
  do_begin_form ev (slist (init ++ [last])) env st = ev last env true st1.
Proof.
  intros Hrun. rewrite do_begin_form_slist by (by destruct init).
  by apply eval_all_last.
Qed.

Lemma do_begin_form_empty ev env st :
  do_begin_form ev (slist []) env st = Raise (SchemeError TooFewOperands) st.
Proof. reflexivity. Qed.

(** ** cond *)

Lemma eval_value_Ok ev e env st v st1 :
  ev e env false st = Ok (Val v) st1 -> eval_value ev e env st = Ok v st1.
Proof. intros H. unfold eval_value, bind. by rewrite H. Qed.

Lemma check_form_clause x l st : check_form (slist (x :: l)) 1 None st = Ok tt st.
Proof. rewrite check_form_slist. reflexivity. Qed.

Lemma cond_loop_skips ev env pre : forall rest i num st st1,
  cond_skips ev env pre st st1 ->
  cond_loop ev (slist (pre ++ rest)) i num env st
  = cond_loop ev (slist rest) (i + List.length pre) num env st1.
Proof.
  induction pre as [|c pre IH]; intros rest i num st st1 Hskip;
    inversion Hskip as [|test body ? ? st' ? Helse Hev Hrest]; subst.
  - simpl. by rewrite Nat.add_0_r.
  - cbn [app slist cond_loop]. unfold bind at 1.
    change (Pair test (slist body)) with (slist (test :: body)).
    rewrite check_form_clause.
    unfold bind at 1. cbn [slist first ret]. rewrite Helse.
    unfold bind at 1. rewrite (eval_value_Ok _ _ _ _ _ _ Hev).
    cbn [scheme_true]. rewrite (IH rest (S i) num st' st1 Hrest).
    f_equal. simpl. lia.
Qed.

Lemma do_cond_form_skips ev env pre rest st st1 :
  cond_skips ev env pre st st1 ->
  do_cond_form ev (slist (pre ++ rest)) env st
  = cond_loop ev (slist rest) (List.length pre)
      (List.length pre + List.length rest) env st1.
Proof.
  intros Hskip. unfold do_cond_form, bind. rewrite len_slist, length_app.
  by rewrite (cond_loop_skips _ _ _ _ _ _ _ _ Hskip).
Qed.

Lemma cond_loop_else ev env body rest i num st :
  cond_loop ev (slist (slist (Sym "else"%string :: body) :: rest)) i num env st
  = if i <? num - 1 then Raise (SchemeError ElseMustBeLast) st
    else do_begin_form ev (slist body) env st.
Proof.
  cbn [slist cond_loop]. unfold bind at 1.
  change (Pair (Sym "else"%string) (slist body))
    with (slist (Sym "else"%string :: body)).
  rewrite check_form_clause.
  unfold bind at 1. cbn [slist first ret is_else].
  change (String.eqb "else" "else") with true. cbv iota.
  destruct (i <? num - 1); reflexivity.
Qed.

Lemma cond_loop_test ev env test body rest i num st v st1 :
  is_else test = false ->
  ev test env false st = Ok (Val v) st1 ->
  scheme_true v = true ->
  cond_loop ev (slist (slist (test :: body) :: rest)) i num env st
  = match body with
    | [] => Ok (Val v) st1
    | _ => do_begin_form ev (slist body) env st1
    end.
Proof.
  intros Helse Hev Htrue. cbn [slist cond_loop]. unfold bind at 1.
  change (Pair test (slist body)) with (slist (test :: body)).
  rewrite check_form_clause.
  unfold bind at 1. cbn [slist first ret]. rewrite Helse.
  unfold bind at 1. rewrite (eval_value_Ok _ _ _ _ _ _ Hev). rewrite Htrue.
  unfold bind at 1. cbn [second ret]. by destruct body.
Qed.

Lemma do_cond_form_else_early ev env pre body c post st st1 :
  cond_skips ev env pre st st1 ->
  do_cond_form ev
    (slist (pre ++ slist (Sym "else"%string :: body) :: c :: post)) env st
  = Raise (SchemeError ElseMustBeLast) st1.
Proof.
  intros Hskip. rewrite (do_cond_form_skips _ _ _ _ _ _ Hskip).
  rewrite cond_loop_else. cbn [List.length].
  destruct (_ <? _) eqn:Hlt; [done|]. apply Nat.ltb_ge in Hlt. lia.
Qed.

Lemma do_cond_form_else_last ev env pre body st st1 :
  cond_skips ev env pre st st1 ->
  do_cond_form ev (slist (pre ++ [slist (Sym "else"%string :: body)])) env st
  = do_begin_form ev (slist body) env st1.
Proof.
  intros Hskip. rewrite (do_cond_form_skips _ _ _ _ _ _ Hskip).
  rewrite cond_loop_else. cbn [List.length].
  destruct (_ <? _) eqn:Hlt; [|done]. apply Nat.ltb_lt in Hlt. lia.
Qed.

(** C7. When the loop of [do_cond_form] has passed over the clauses [pre]
    (none of them matched) and comes to an [else] clause, then: if more
    clauses follow, the form fails with "else must be last"; if the clause
    is the final one, it is taken without any test and the form is the
    [begin] of its body. *)
Theorem cond_else_only_as_last_clause ev env pre body st st1 :
  cond_skips ev env pre st st1 ->
  (forall c post,
      do_cond_form ev
        (slist (pre ++ slist (Sym "else"%string :: body) :: c :: post)) env st
      = Raise (SchemeError ElseMustBeLast) st1)
  /\ do_cond_form ev (slist (pre ++ [slist (Sym "else"%string :: body)])) env st
     = do_begin_form ev (slist body) env st1.
Proof.
  intros Hskip. split.
  - intros c post. by apply do_cond_form_else_early.
  - by apply do_cond_form_else_last.
Qed.

Lemma cond_else_only_as_last_clause_witness :
  do_cond_form (scheme_optimized_eval demo_primitive_fn 3)
    (slist [slist [Bool false; Num 1]; slist [Sym "else"%string; Num 2];
            slist [Num 3; Num 4]]) 0 demo_store
  = Raise (SchemeError ElseMustBeLast) demo_store
  /\ do_cond_form (scheme_optimized_eval demo_primitive_fn 3)
       (slist [slist [Bool false; Num 1]; slist [Sym "else"%string; Num 2]])
       0 demo_store
     = Ok (Val (Num 2)) demo_store.
Proof.
  assert (Hskip : cond_skips (scheme_optimized_eval demo_primitive_fn 3) 0
                    [slist [Bool false; Num 1]] demo_store demo_store).
  { apply (cond_skips_cons _ _ (Bool false) [Num 1] [] demo_store demo_store);
      [reflexivity|reflexivity|constructor]. }
  destruct (cond_else_only_as_last_clause _ _ _ [Num 2] _ _ Hskip) as [Herr Hlast].
  split.
  - apply (Herr (slist [Num 3; Num 4]) []).
  - etransitivity; [apply Hlast|reflexivity].
Defined.

(** C5, as the code has it.  When the loop of [do_cond_form] has passed over
    the clauses [pre], the next clause wins if its test is true or if it is
    the final [else] clause.  A winning test clause without a body yields the
    value of its test; a winning clause with a body is evaluated as a [begin]:
    the expressions before the last for their effect, the last one with the
    tail flag set.  A final [else] clause without a body makes [begin] fail
    with "too few operands". *)
Theorem cond_first_true_clause_wins ev env pre st st1 :
  cond_skips ev env pre st st1 ->
  (forall test post v st2,
      is_else test = false ->
      ev test env false st1 = Ok (Val v) st2 ->
      scheme_true v = true ->
      do_cond_form ev (slist (pre ++ slist [test] :: post)) env st = Ok (Val v) st2
      /\ (forall init last st3,
            evaluated_in_order ev env init st2 st3 ->
            do_cond_form ev
              (slist (pre ++ slist (test :: init ++ [last]) :: post)) env st
            = do_begin_form ev (slist (init ++ [last])) env st2
            /\ do_begin_form ev (slist (init ++ [last])) env st2
               = ev last env true st3))
  /\ (forall init last st3,
        evaluated_in_order ev env init st1 st3 ->
        do_cond_form ev
          (slist (pre ++ [slist (Sym "else"%string :: init ++ [last])])) env st
        = ev last env true st3)
  /\ do_cond_form ev (slist (pre ++ [slist [Sym "else"%string]])) env st
     = Raise (SchemeError TooFewOperands) st1.
Proof.
  intros Hskip. split; [|split].
  - intros test post v st2 Helse Hev Htrue. split.
    + rewrite (do_cond_form_skips _ _ _ _ _ _ Hskip).
      by rewrite (cond_loop_test _ _ _ _ _ _ _ _ _ _ Helse Hev Htrue).
    + intros init last st3 Hrun. split.
      * rewrite (do_cond_form_skips _ _ _ _ _ _ Hskip).
        rewrite (cond_loop_test _ _ _ _ _ _ _ _ _ _ Helse Hev Htrue).
        by destruct init.
      * by apply do_begin_form_last.
  - intros init last st3 Hrun.
    rewrite (do_cond_form_else_last _ _ _ (init ++ [last]) _ _ Hskip).
    by apply do_begin_form_last.
  - rewrite (do_cond_form_else_last _ _ _ [] _ _ Hskip).
    apply do_begin_form_empty.
Qed.

Lemma cond_first_true_clause_wins_witness :
  do_cond_form (scheme_optimized_eval demo_primitive_fn 3)
    (slist [slist [Bool false; Num 1]; slist [Num 7]; slist [Num 3; Num 4]])
    0 demo_store
  = Ok (Val (Num 7)) demo_store
  /\ do_cond_form (scheme_optimized_eval demo_primitive_fn 3)
       (slist [slist [Bool false; Num 1];
               slist [Num 7; Num 8; slist [Sym "+"%string; Num 1; Num 2]]])
       0 demo_store
     = Ok (Evaluate (slist [Sym "+"%string; Num 1; Num 2]) 0) demo_store.
Proof.
  assert (Hskip : cond_skips (scheme_optimized_eval demo_primitive_fn 3) 0
                    [slist [Bool false; Num 1]] demo_store demo_store).
  { apply (cond_skips_cons _ _ (Bool false) [Num 1] [] demo_store demo_store);
      [reflexivity|reflexivity|constructor]. }
  destruct (cond_first_true_clause_wins _ _ _ _ _ Hskip) as [Htest _].
  split.
  - apply (Htest (Num 7) [slist [Num 3; Num 4]] (Num 7) demo_store);
      reflexivity.
  - destruct (Htest (Num 7) [] (Num 7) demo_store eq_refl eq_refl eq_refl)
      as [_ Hbody].
    destruct (Hbody [Num 8] (slist [Sym "+"%string; Num 1; Num 2]) demo_store)
      as [H1 H2].
    { apply (evaluated_cons _ _ (Num 8) [] (Val (Num 8)) demo_store demo_store);
        [reflexivity|constructor]. }
    etransitivity; [apply H1|]. etransitivity; [apply H2|]. reflexivity.
Defined.

(** C5, as it is stated, fails on an [else] clause without a body:
    [(cond (else))] does not return the true value, it raises. *)
Lemma cond_else_without_body_raises :
  do_cond_form (scheme_optimized_eval demo_primitive_fn 3)
    (slist [slist [Sym "else"%string]]) 0 demo_store
  = Raise (SchemeError TooFewOperands) demo_store
  /\ do_cond_form (scheme_optimized_eval demo_primitive_fn 3)
       (slist [slist [Sym "else"%string]]) 0 demo_store
     <> Ok (Val (Bool true)) demo_store.
Proof. split; [reflexivity|discriminate]. Qed.

(** ** let *)

Lemma foldl_Pair_reverse l : forall acc,
  foldl (fun a x => Pair x a) (slist acc) l = slist (reverse l ++ acc).
Proof.
  induction l as [|x l IH]; intros acc; [done|].
  cbn [foldl]. change (Pair x (slist acc)) with (slist (x :: acc)).
  rewrite IH, reverse_cons, <- app_assoc. reflexivity.
Qed.

Lemma let_loop_values ev env bs : forall st vs st' formals values,
  let_values ev env bs st vs st' ->
  let_loop ev (slist (let_entry <$> bs)) formals values env st
  = Ok (foldl (fun a x => Pair x a) formals (bs.*1),
        foldl (fun a x => Pair x a) values vs) st'.
Proof.
  induction bs as [|[name e] bs IH]; intros st vs st' formals values Hrun;
    inversion Hrun as [|? ? ? v vs' ? st1 ? Hev Hrest]; subst; [done|].
  cbn [fmap list_fmap slist let_loop let_entry fst snd].
  unfold bind at 1.
  change (Pair name (Pair e Nil)) with (slist [name; e]).
  rewrite check_form_slist. cbn [List.length Nat.ltb Nat.leb].
  unfold bind at 1. cbn [slist first second ret].
  unfold bind at 1. cbn [ret]. unfold bind at 1. cbn [first ret].
  unfold bind at 1. rewrite (eval_value_Ok _ _ _ _ _ _ Hev).
  by rewrite (IH _ _ _ _ _ Hrest).
Qed.

(** On a binding list whose expressions all return, [make_let_frame]
    evaluates the expressions in order in [env] and only then checks the
    names and builds the child frame, in the store the evaluations left. *)
Lemma make_let_frame_values ev env bs st vs st' :
  let_values ev env bs st vs st' ->
  make_let_frame ev (slist (let_entry <$> bs)) env st
  = (check_formals (slist (reverse (bs.*1))) ;;
     make_child_frame env (slist (reverse (bs.*1))) (slist (reverse vs))) st'.
Proof.
  intros Hrun. unfold make_let_frame. rewrite scheme_listp_slist. cbn [negb].
  unfold bind at 1.
  rewrite (let_loop_values _ _ _ _ _ _ Nil Nil Hrun). cbn [fst snd].
  change Nil with (slist []).
  by rewrite !foldl_Pair_reverse, !app_nil_r.
Qed.

Lemma eval_value_ext ev ev' env :
  (forall e st, ev e env false st = ev' e env false st) ->
  forall e st, eval_value ev e env st = eval_value ev' e env st.
Proof. intros H e st. unfold eval_value, bind. by rewrite H. Qed.

Lemma let_loop_ext ev ev' env :
  (forall e st, ev e env false st = ev' e env false st) ->
  forall bindings formals values st,
    let_loop ev bindings formals values env st
    = let_loop ev' bindings formals values env st.
Proof.
  intros H bindings.
  induction bindings as [| | | | | |start _ rest IH| | |];
    intros formals values st; try reflexivity.
  cbn [let_loop]. unfold bind.
  destruct (check_form start 0 (Some 2) st) as [[] st1| |]; [|done|done].
  destruct (first start st1) as [name st2| |]; [|done|done].
  destruct (second start st2) as [tl st3| |]; [|done|done].
  destruct (first tl st3) as [e st4| |]; [|done|done].
  rewrite (eval_value_ext ev ev' env H).
  destruct (eval_value ev' e env st4) as [v st5| |]; [|done|done].
  apply IH.
Qed.

Lemma make_let_frame_ext ev ev' env :
  (forall e st, ev e env false st = ev' e env false st) ->
  forall bindings st,
    make_let_frame ev bindings env st = make_let_frame ev' bindings env st.
Proof.
  intros H bindings st. unfold make_let_frame.
  destruct (negb (scheme_listp bindings)); [done|].
  unfold bind at 1 3. by rewrite (let_loop_ext ev ev' env H).
Qed.

Lemma frame_lookup_unbound_eval fn n env x st :
  frame_lookup env x st = Raise (SchemeError (UnknownIdentifier x)) st ->
  eval_value (scheme_optimized_eval fn n) (Sym x) env st
  = Raise (SchemeError (UnknownIdentifier x)) st.
Proof.
  intros H. unfold eval_value, bind.
  rewrite scheme_optimized_eval_atom by (by left).
  unfold as_result, bind. by rewrite H.
Qed.

(** C4. [make_let_frame] calls the evaluator on the binding expressions in
    the frame [env] of the let form and in no other frame: two evaluators
    that agree in [env] give the same let frame.  When the binding
    expressions all return, the child frame is checked and built after the
    last of them, from the values obtained in [env].  So
    [(let ((x 5) (y x)) y)], in a frame from which [x] is unbound, fails with
    "unknown identifier: x", raised by [make_let_frame] while it goes
    through the binding list. *)
Theorem let_bindings_evaluated_in_outer_frame fn env st :
  (forall ev ev' bindings,
      (forall e st0, ev e env false st0 = ev' e env false st0) ->
      make_let_frame ev bindings env st = make_let_frame ev' bindings env st)
  /\ (forall ev bs vs st',
        let_values ev env bs st vs st' ->
        make_let_frame ev (slist (let_entry <$> bs)) env st
        = (check_formals (slist (reverse (bs.*1))) ;;
           make_child_frame env (slist (reverse (bs.*1))) (slist (reverse vs))) st')
  /\ (frame_lookup env "x"%string st
        = Raise (SchemeError (UnknownIdentifier "x"%string)) st ->
      forall n,
        make_let_frame (scheme_optimized_eval fn n)
          (slist [slist [Sym "x"%string; Num 5]; slist [Sym "y"%string; Sym "x"%string]])
          env st
        = Raise (SchemeError (UnknownIdentifier "x"%string)) st
        /\ scheme_optimized_eval fn (S n) let_x_5_y_x env false st
           = Raise (SchemeError (UnknownIdentifier "x"%string)) st).
Proof.
  split; [|split].
  - intros ev ev' bindings H. by apply make_let_frame_ext.
  - intros ev bs vs st' Hrun. by apply make_let_frame_values.
  - intros Hx n.
    assert (Hlet : make_let_frame (scheme_optimized_eval fn n)
              (slist [slist [Sym "x"%string; Num 5];
                      slist [Sym "y"%string; Sym "x"%string]]) env st
            = Raise (SchemeError (UnknownIdentifier "x"%string)) st).
    { unfold make_let_frame. cbn [slist scheme_listp negb].
      unfold bind at 1. cbn [let_loop]. unfold bind at 1.
      change (Pair (Sym "x"%string) (Pair (Num 5) Nil))
        with (slist [Sym "x"%string; Num 5]).
      rewrite check_form_slist. cbn [List.length Nat.ltb Nat.leb slist].
      unfold bind at 1. cbn [first second ret].
      unfold bind at 1. cbn [ret]. unfold bind at 1. cbn [first ret].
      unfold bind at 1. unfold eval_value at 1. unfold bind at 1.
      rewrite scheme_optimized_eval_atom by (by right). cbn [ret].
      unfold bind at 1.
      change (Pair (Sym "y"%string) (Pair (Sym "x"%string) Nil))
        with (slist [Sym "y"%string; Sym "x"%string]).
      rewrite check_form_slist. cbn [List.length Nat.ltb Nat.leb slist].
      unfold bind at 1. cbn [first second ret].
      unfold bind at 1. cbn [ret]. unfold bind at 1. cbn [first ret].
      unfold bind at 1. by rewrite frame_lookup_unbound_eval. }
    split; [exact Hlet|].
    cbn [scheme_optimized_eval let_x_5_y_x slist self_evaluating scheme_atomp
           scheme_booleanp scheme_numberp scheme_symbolp scheme_nullp
           scheme_stringp is_none orb trampoline].
    unfold bind at 1. unfold eval_combination.
    cbn [scheme_listp negb]. unfold bind at 1. cbn [first ret].
    unfold bind at 1. cbn [second ret].
    change (special_form (scheme_optimized_eval fn n) (Sym "let"%string))
      with (Some (do_let_form (scheme_optimized_eval fn n))).
    unfold do_let_form. unfold bind at 1.
    match goal with |- context [check_form ?e 2 None st] =>
      change (check_form e 2 None st) with (Ok tt st) end.
    unfold bind at 1. cbn [first ret]. unfold bind at 1.
    change (Pair (Pair (Sym "x"%string) (Pair (Num 5) Nil))
              (Pair (Pair (Sym "y"%string) (Pair (Sym "x"%string) Nil)) Nil))
      with (slist [slist [Sym "x"%string; Num 5];
                   slist [Sym "y"%string; Sym "x"%string]]).
    by rewrite Hlet.
Qed.

Lemma let_bindings_evaluated_in_outer_frame_witness :
  make_let_frame (scheme_optimized_eval demo_primitive_fn 1)
    (slist [slist [Sym "x"%string; Num 5]; slist [Sym "y"%string; Sym "x"%string]])
    0 demo_store
  = Raise (SchemeError (UnknownIdentifier "x"%string)) demo_store
  /\ scheme_optimized_eval demo_primitive_fn 2 let_x_5_y_x 0 false demo_store
     = Raise (SchemeError (UnknownIdentifier "x"%string)) demo_store.
Proof.
  apply (proj2 (proj2 (let_bindings_evaluated_in_outer_frame
                         demo_primitive_fn 0 demo_store))).
  reflexivity.
Defined.

(** ** The optimized evaluator follows the plain one *)

Lemma converges_const {A} (c : M A) st a st' :
  c st = Ok a st' -> converges (fun _ => c) st a st'.
Proof. intros H. by exists 0. Qed.

Lemma converges_bind {A B} (o : nat -> M A) (ko : nat -> A -> M B) st a st1 b st2 :
  converges o st a st1 ->
  converges (fun m => ko m a) st1 b st2 ->
  converges (fun m => bind (o m) (ko m)) st b st2.
Proof.
  intros [m1 H1] [m2 H2]. exists (m1 `max` m2). intros m' Hm'.
  unfold bind. rewrite H1 by lia. apply H2. lia.
Qed.

Lemma bind_Ok_inv {A B} (c : M A) (k : A -> M B) st b st2 :
  bind c k st = Ok b st2 -> exists a st1, c st = Ok a st1 /\ k a st1 = Ok b st2.
Proof.
  unfold bind. destruct (c st) as [a st1| |]; [|done|done]. eauto.
Qed.

Lemma sim_eq_const {A} (c : M A) : sim_eq c (fun _ => c).
Proof. intros st a st' H. by apply converges_const. Qed.

Lemma sim_eq_bind {A B} (p : M A) (kp : A -> M B) o ko :
  sim_eq p o ->
  (forall a, sim_eq (kp a) (fun m => ko m a)) ->
  sim_eq (bind p kp) (fun m => bind (o m) (ko m)).
Proof.
  intros Hp Hk st b st2 H. apply bind_Ok_inv in H as (a & st1 & Ha & Hb).
  eapply converges_bind; [by apply Hp|by apply Hk].
Qed.

Lemma sim_res_bind {A} fn (p : M A) (kp : A -> M result) o ko :
  sim_eq p o ->
  (forall a, sim_res fn (kp a) (fun m => ko m a)) ->
  sim_res fn (bind p kp) (fun m => bind (o m) (ko m)).
Proof.
  intros Hp Hk st rp st2 H. apply bind_Ok_inv in H as (a & st1 & Ha & Hb).
  destruct (Hk a st1 rp st2 Hb) as (v & -> & r & st3 & Hconv & Hcompl).
  exists v. split; [done|]. exists r, st3. split; [|done].
  eapply converges_bind; [by apply Hp|done].
Qed.

Lemma completes_Val fn v st : completes fn (Val v) st v st.
Proof. exists 0. intros m' k _ _. by destruct k. Qed.

Lemma sim_res_ret fn v : sim_res fn (ret (Val v)) (fun _ => ret (Val v)).
Proof.
  intros st rp st' H. unfold ret in H. simplify_eq.
  exists v. split; [done|]. exists (Val v), st'. split.
  - by apply converges_const.
  - apply completes_Val.
Qed.

Lemma sim_res_raise fn e o : sim_res fn (raise e) o.
Proof. intros st rp st' H. discriminate. Qed.

Lemma sim_eq_raise {A} e (o : nat -> M A) : sim_eq (raise e) o.
Proof. intros st rp st' H. discriminate. Qed.

Lemma sim_res_as_result fn (p : M value) o :
  sim_eq p o -> sim_res fn (as_result p) (fun m => as_result (o m)).
Proof.
  intros Hp. unfold as_result. apply sim_res_bind; [done|].
  intros v. apply sim_res_ret.
Qed.

Lemma atomic_spec e :
  atomic e = true -> scheme_symbolp e = true \/ self_evaluating e = true.
Proof. unfold atomic. intros H. by apply orb_prop in H. Qed.

Lemma atomic_false e :
  atomic e = false -> scheme_symbolp e = false /\ self_evaluating e = false.
Proof. unfold atomic. intros H. by apply orb_false_elim in H. Qed.

Lemma scheme_optimized_eval_atomic fn n e env tail :
  atomic e = true -> scheme_optimized_eval fn n e env tail = eval_atom e env.
Proof. intros H. apply scheme_optimized_eval_atom. by apply atomic_spec. Qed.

Lemma scheme_plain_eval_atomic fn n e env b :
  atomic e = true -> scheme_plain_eval fn n e env b = eval_atom e env.
Proof.
  intros H. apply atomic_spec in H.
  destruct n, e; simpl in *; try reflexivity; destruct H; discriminate.
Qed.

Lemma scheme_plain_eval_combination fn n e env b :
  atomic e = false ->
  scheme_plain_eval fn (S n) e env b
  = eval_combination fn (scheme_plain_eval fn n) e env.
Proof.
  intros H. apply atomic_false in H as [Hsym Hself].
  destruct e; simpl in *; try discriminate; reflexivity.
Qed.

Lemma scheme_plain_eval_0 fn e env b st :
  atomic e = false -> scheme_plain_eval fn 0 e env b st = OutOfFuel.
Proof.
  intros H. apply atomic_false in H as [Hsym Hself].
  destruct e; simpl in *; try discriminate; reflexivity.
Qed.

Lemma scheme_optimized_eval_combination fn n e env :
  atomic e = false ->
  scheme_optimized_eval fn (S n) e env false
  = trampoline (eval_combination fn (scheme_optimized_eval fn n)) (S n)
      (Evaluate e env).
Proof.
  intros H. apply atomic_false in H as [Hsym Hself].
  destruct e; simpl in *; try discriminate; reflexivity.
Qed.

Lemma eval_atom_Val e env st r st' :
  eval_atom e env st = Ok r st' -> exists v, r = Val v.
Proof.
  destruct e; simpl; unfold ret; intros H; simplify_eq; eauto.
  unfold as_result, bind, ret in H.
  destruct (frame_lookup env name st); simplify_eq; eauto.
Qed.

(** A value that the optimized evaluator reaches is what it returns without
    the tail flag, and what its loop makes of its result with the flag. *)
Lemma reaches_nontail fn e env st v st' :
  reaches fn e env st v st' ->
  converges (fun m => scheme_optimized_eval fn m e env false) st (Val v) st'.
Proof.
  unfold reaches. destruct (atomic e) eqn:Ha.
  - intros H. exists 0. intros m' _. by rewrite scheme_optimized_eval_atomic.
  - intros [m H]. exists (S m). intros m' Hm'.
    destruct m' as [|m']; [lia|].
    rewrite scheme_optimized_eval_combination by done. apply H; lia.
Qed.

Lemma reaches_tail fn e env st v st' :
  reaches fn e env st v st' ->
  exists r st1,
    converges (fun m => scheme_optimized_eval fn m e env true) st r st1
    /\ completes fn r st1 v st'.
Proof.
  unfold reaches. destruct (atomic e) eqn:Ha.
  - intros H. exists (Val v), st'. split; [|apply completes_Val].
    exists 0. intros m' _. by rewrite scheme_optimized_eval_atomic.
  - intros H. exists (Evaluate e env), st. split; [|done].
    exists 0. intros m' _. apply atomic_false in Ha as [Hsym Hself].
    by rewrite scheme_optimized_eval_tail.
Qed.

Section Handlers.

Variable fn : string -> list value -> option frame -> M value.
Variable evP : value -> frame -> bool -> M result.
Hypothesis Hok : followed_by_optimized fn evP.

Lemma sim_eval_discard e env :
  sim_eq (evP e env false) (fun m => scheme_optimized_eval fn m e env false).
Proof.
  intros st r st' H. destruct (Hok _ _ _ _ _ _ H) as (v & -> & Hr).
  by apply reaches_nontail.
Qed.

Lemma sim_eval_tail e env :
  sim_res fn (evP e env true) (fun m => scheme_optimized_eval fn m e env true).
Proof.
  intros st r st' H. destruct (Hok _ _ _ _ _ _ H) as (v & -> & Hr).
  exists v. split; [done|]. by apply reaches_tail.
Qed.

Lemma sim_eval_value e env :
  sim_eq (eval_value evP e env)
    (fun m => eval_value (scheme_optimized_eval fn m) e env).
Proof.
  unfold eval_value. apply sim_eq_bind; [apply sim_eval_discard|].
  intros r. apply sim_eq_const.
Qed.

Ltac sim_step :=
  first
    [ apply sim_res_ret | apply sim_res_raise | apply sim_eq_raise
    | apply sim_eval_tail | apply sim_eval_value | apply sim_eval_discard
    | apply sim_eq_const
    | apply sim_res_as_result
    | apply sim_res_bind; [|intros ?]
    | apply sim_eq_bind; [|intros ?]
    | match goal with
      | |- sim_res _ (if ?b then _ else _) _ => destruct b
      | |- sim_eq (if ?b then _ else _) _ => destruct b
      | |- sim_res _ (match ?x with _ => _ end) _ => destruct x
      | |- sim_eq (match ?x with _ => _ end) _ => destruct x
      end ].

Lemma sim_eval_all_loop rest : forall first_ env,
  sim_res fn (eval_all_loop evP first_ rest env)
    (fun m => eval_all_loop (scheme_optimized_eval fn m) first_ rest env).
Proof.
  induction rest; intros ? ?; cbn [eval_all_loop]; repeat sim_step.
  apply IHrest2.
Qed.

Lemma sim_eval_all expressions env :
  sim_res fn (eval_all evP expressions env)
    (fun m => eval_all (scheme_optimized_eval fn m) expressions env).
Proof.
  unfold eval_all. destruct expressions; repeat sim_step;
    apply sim_eval_all_loop.
Qed.

Lemma sim_map_eval arg_exprs : forall env,
  sim_eq (map_eval evP arg_exprs env)
    (fun m => map_eval (scheme_optimized_eval fn m) arg_exprs env).
Proof.
  induction arg_exprs; intros ?; cbn [map_eval]; repeat sim_step.
  apply IHarg_exprs2.
Qed.

Lemma sim_procedure_apply self args env :
  sim_res fn (procedure_apply fn evP self args env)
    (fun m => procedure_apply fn (scheme_optimized_eval fn m) self args env).
Proof.
  unfold procedure_apply. destruct self; repeat sim_step; apply sim_eval_all.
Qed.

Lemma sim_scheme_apply procedure args env :
  sim_res fn (scheme_apply fn evP procedure args env)
    (fun m => scheme_apply fn (scheme_optimized_eval fn m) procedure args env).
Proof.
  unfold scheme_apply. repeat sim_step. apply sim_procedure_apply.
Qed.

Lemma sim_eval_call self arg_exprs env :
  sim_res fn (eval_call fn evP self arg_exprs env)
    (fun m => eval_call fn (scheme_optimized_eval fn m) self arg_exprs env).
Proof.
  unfold eval_call. repeat sim_step; [apply sim_map_eval|apply sim_scheme_apply].
Qed.

Lemma sim_do_define_form expressions env :
  sim_eq (do_define_form evP expressions env)
    (fun m => do_define_form (scheme_optimized_eval fn m) expressions env).
Proof. unfold do_define_form. repeat sim_step. Qed.

Lemma sim_do_begin_form expressions env :
  sim_res fn (do_begin_form evP expressions env)
    (fun m => do_begin_form (scheme_optimized_eval fn m) expressions env).
Proof. unfold do_begin_form. repeat sim_step. apply sim_eval_all. Qed.

Lemma sim_do_if_form expressions env :
  sim_res fn (do_if_form evP expressions env)
    (fun m => do_if_form (scheme_optimized_eval fn m) expressions env).
Proof. unfold do_if_form. repeat sim_step. Qed.

Lemma sim_and_loop rest : forall first_ env,
  sim_res fn (and_loop evP first_ rest env)
    (fun m => and_loop (scheme_optimized_eval fn m) first_ rest env).
Proof.
  induction rest; intros ? ?; cbn [and_loop]; repeat sim_step.
  apply IHrest2.
Qed.

Lemma sim_do_and_form expressions env :
  sim_res fn (do_and_form evP expressions env)
    (fun m => do_and_form (scheme_optimized_eval fn m) expressions env).
Proof. unfold do_and_form. repeat sim_step. apply sim_and_loop. Qed.

Lemma sim_or_loop second_ : forall first_ env,
  sim_res fn (or_loop evP first_ second_ env)
    (fun m => or_loop (scheme_optimized_eval fn m) first_ second_ env).
Proof.
  induction second_; intros ? ?; cbn [or_loop]; repeat sim_step.
  apply IHsecond_2.
Qed.

Lemma sim_do_or_form expressions env :
  sim_res fn (do_or_form evP expressions env)
    (fun m => do_or_form (scheme_optimized_eval fn m) expressions env).
Proof. unfold do_or_form. repeat sim_step. apply sim_or_loop. Qed.

Lemma sim_cond_loop expressions : forall i num_clauses env,
  sim_res fn (cond_loop evP expressions i num_clauses env)
    (fun m => cond_loop (scheme_optimized_eval fn m) expressions i num_clauses env).
Proof.
  induction expressions; intros ? ? ?; cbn [cond_loop]; repeat sim_step;
    first [apply sim_eval_all | apply sim_do_begin_form | apply IHexpressions2].
Qed.

Lemma sim_do_cond_form expressions env :
  sim_res fn (do_cond_form evP expressions env)
    (fun m => do_cond_form (scheme_optimized_eval fn m) expressions env).
Proof. unfold do_cond_form. repeat sim_step. apply sim_cond_loop. Qed.

Lemma sim_let_loop bindings_ : forall formals values env,
  sim_eq (let_loop evP bindings_ formals values env)
    (fun m => let_loop (scheme_optimized_eval fn m) bindings_ formals values env).
Proof.
  induction bindings_; intros ? ? ?; cbn [let_loop]; repeat sim_step.
  apply IHbindings_2.
Qed.

Lemma sim_make_let_frame bindings_ env :
  sim_eq (make_let_frame evP bindings_ env)
    (fun m => make_let_frame (scheme_optimized_eval fn m) bindings_ env).
Proof. unfold make_let_frame. repeat sim_step. apply sim_let_loop. Qed.

Lemma sim_do_let_form expressions env :
  sim_res fn (do_let_form evP expressions env)
    (fun m => do_let_form (scheme_optimized_eval fn m) expressions env).
Proof.
  unfold do_let_form. repeat sim_step; [apply sim_make_let_frame|apply sim_eval_all].
Qed.

Lemma sim_special_form x handler :
  special_form evP x = Some handler ->
  exists handler',
    (forall m, special_form (scheme_optimized_eval fn m) x = Some (handler' m))
    /\ forall rest env, sim_res fn (handler rest env) (fun m => handler' m rest env).
Proof.
  destruct x; try discriminate. cbn [special_form]. unfold SPECIAL_FORMS.
  repeat (destruct (String.eqb name _);
          [intros ?; simplify_eq; eexists (fun m => _); split;
             [intros m; reflexivity|intros rest env; cbv beta]|]);
    [apply sim_do_and_form | apply sim_do_begin_form | apply sim_do_cond_form
    | apply sim_res_as_result, sim_do_define_form | apply sim_do_if_form
    | apply sim_res_as_result, sim_eq_const | apply sim_do_let_form
    | apply sim_do_or_form | apply sim_res_as_result, sim_eq_const
    | apply sim_res_as_result, sim_eq_const | discriminate].
Qed.

Lemma special_form_None x :
  special_form evP x = None ->
  forall m, special_form (scheme_optimized_eval fn m) x = None.
Proof.
  destruct x; try done. cbn [special_form]. unfold SPECIAL_FORMS.
  repeat (destruct (String.eqb name _); [discriminate|]). done.
Qed.

Lemma sim_eval_combination expr env :
  sim_res fn (eval_combination fn evP expr env)
    (fun m => eval_combination fn (scheme_optimized_eval fn m) expr env).
Proof.
  unfold eval_combination. destruct (negb (scheme_listp expr)); [apply sim_res_raise|].
  apply sim_res_bind; [apply sim_eq_const|]. intros first_.
  apply sim_res_bind; [apply sim_eq_const|]. intros rest.
  destruct (special_form evP first_) as [handler|] eqn:Hsf.
  - destruct (sim_special_form _ _ Hsf) as (handler' & Heq & Hsim).
    intros st rp st' H. destruct (Hsim rest env st rp st' H) as (v & -> & r & st1 & Hc & Hd).
    exists v. split; [done|]. exists r, st1. split; [|done].
    destruct Hc as [m0 Hc]. exists m0. intros m' Hm'. rewrite Heq. by apply Hc.
  - pose proof (special_form_None _ Hsf) as Hnone.
    intros st rp st' H.
    assert (Hsim : sim_res fn
              (procedure <- eval_value evP first_ env ;;
               if negb (scheme_procedurep procedure) then raise (SchemeError CannotCall)
               else eval_call fn evP procedure rest env)
              (fun m =>
                 procedure <- eval_value (scheme_optimized_eval fn m) first_ env ;;
                 if negb (scheme_procedurep procedure) then raise (SchemeError CannotCall)
                 else eval_call fn (scheme_optimized_eval fn m) procedure rest env)).
    { repeat sim_step;
        first [apply sim_eval_call | apply sim_map_eval | apply sim_scheme_apply
              | apply sim_procedure_apply | apply sim_eval_all]. }
    destruct (Hsim st rp st' H) as (v & -> & r & st1 & Hc & Hd).
    exists v. split; [done|]. exists r, st1. split; [|done].
    destruct Hc as [m0 Hc]. exists m0. intros m' Hm'. rewrite Hnone. by apply Hc.
Qed.

End Handlers.

Lemma completes_step fn e env st r st1 v st' :
  converges (fun m => eval_combination fn (scheme_optimized_eval fn m) e env) st r st1 ->
  completes fn r st1 v st' ->
  completes fn (Evaluate e env) st v st'.
Proof.
  intros [m1 H1] [m2 H2]. exists (S (m1 `max` m2)). intros m' k Hm' Hk.
  destruct k as [|k]; [lia|]. cbn [trampoline]. unfold bind.
  rewrite H1 by lia. apply H2; lia.
Qed.

(** Every value of the plain evaluator is reached by the optimized one. *)
Lemma scheme_plain_eval_followed fn n :
  followed_by_optimized fn (scheme_plain_eval fn n).
Proof.
  induction n as [|n IH]; intros e env b st r st' H; unfold reaches;
    destruct (atomic e) eqn:Ha.
  - rewrite scheme_plain_eval_atomic in H by done.
    destruct (eval_atom_Val _ _ _ _ _ H) as [v ->]. eauto.
  - by rewrite scheme_plain_eval_0 in H.
  - rewrite scheme_plain_eval_atomic in H by done.
    destruct (eval_atom_Val _ _ _ _ _ H) as [v ->]. eauto.
  - rewrite scheme_plain_eval_combination in H by done.
    destruct (sim_eval_combination fn _ IH e env st r st' H)
      as (v & -> & r' & st1 & Hconv & Hcompl).
    exists v. split; [done|]. by eapply completes_step.
Qed.

(** C10. Whenever the plain recursive evaluator returns a value, the
    optimized evaluator, called without the tail flag and given enough fuel,
    returns the same value and leaves the same store; the plain evaluator
    returns nothing but values; and the name [scheme_eval] is bound to the
    optimized evaluator. *)
Theorem scheme_optimized_eval_follows_plain_eval fn n expr env b st :
  (forall v st',
      scheme_plain_eval fn n expr env b st = Ok (Val v) st' ->
      exists m, forall m', m <= m' ->
        scheme_optimized_eval fn m' expr env false st = Ok (Val v) st')
  /\ (forall r st',
        scheme_plain_eval fn n expr env b st = Ok r st' -> exists v, r = Val v)
  /\ scheme_eval fn = scheme_optimized_eval fn.
Proof.
  split; [|split].
  - intros v st' H.
    destruct (scheme_plain_eval_followed fn n _ _ _ _ _ _ H) as (v' & Hv & Hr).
    simplify_eq. by apply reaches_nontail.
  - intros r st' H.
    destruct (scheme_plain_eval_followed fn n _ _ _ _ _ _ H) as (v' & Hv & Hr).
    eauto.
  - reflexivity.
Qed.

Lemma scheme_optimized_eval_follows_plain_eval_witness :
  exists m, forall m', m <= m' ->
    scheme_optimized_eval demo_primitive_fn m' if_tail_call_program 0 false demo_store
    = Ok (Val (Num 4)) demo_store.
Proof.
  apply (proj1 (scheme_optimized_eval_follows_plain_eval demo_primitive_fn 3
                  if_tail_call_program 0 false demo_store)).
  reflexivity.
Defined.

(** Both evaluators on a loop written with a tail call. *)
Example sum_loop_both_evaluators :
  answer (scheme_plain_eval demo_primitive_fn 12 sum_loop_program 0 false demo_store)
  = Some (inl (Val (Num 6)))
  /\ answer (scheme_optimized_eval demo_primitive_fn 12 sum_loop_program 0 false demo_store)
     = Some (inl (Val (Num 6))).
Proof. split; vm_compute; reflexivity. Qed.

(** * Further properties of the interpreter *)

(** ** Frames: define and lookup *)

Lemma lookup_chain_enough st s :
  store_wf st ->
  forall k k' f, f < k -> f < k' ->
    lookup_chain k st f s = lookup_chain k' st f s.
Proof.
  intros Hwf. induction k as [|k IH]; intros k' f Hk Hk'; [lia|].
  destruct k' as [|k']; [lia|]. rewrite !lookup_chain_S.
  destruct (st !! f) as [fr|] eqn:Hfr; [|done].
  destruct (bindings fr !! s); [done|].
  destruct (parent fr) as [p|] eqn:Hp; [|done].
  pose proof (Hwf _ _ _ Hfr Hp). apply IH; lia.
Qed.

Lemma store_wf_define self s v fr (st : store) :
  store_wf st -> st !! self = Some fr ->
  store_wf (<[self := mkFrame (<[s := v]> (bindings fr)) (parent fr)]> st).
Proof.
  intros Hwf Hfr f fr' p Hf Hp.
  destruct (decide (f = self)) as [->|Hne].
  - rewrite list_lookup_insert_eq in Hf by (by eapply lookup_lt_Some).
    simplify_eq. simpl in Hp. by eapply Hwf.
  - rewrite list_lookup_insert_ne in Hf by done. by eapply Hwf.
Qed.

Lemma frame_define_spec self s v (st : store) :
  self < List.length st ->
  exists st',
    frame_define self (Sym s) v st = Ok tt st'
    /\ frame_lookup self s st' = Ok v st'
    /\ List.length st' = List.length st
    /\ (forall f, f <> self -> st' !! f = st !! f)
    /\ (forall fr, st !! self = Some fr ->
          exists fr', st' !! self = Some fr'
                      /\ parent fr' = parent fr
                      /\ forall s', s' <> s -> bindings fr' !! s' = bindings fr !! s').
Proof.
  intros Hself. destruct (lookup_lt_is_Some_2 _ _ Hself) as [fr Hfr].
  eexists. unfold frame_define. rewrite Hfr. split; [reflexivity|].
  split; [|split; [|split]].
  - unfold frame_lookup. rewrite lookup_chain_S.
    rewrite list_lookup_insert_eq by done. cbn [bindings].
    by rewrite lookup_insert_eq.
  - apply length_insert.
  - intros f Hf. by apply list_lookup_insert_ne.
  - intros fr0 Hfr0. simplify_eq. eexists. split.
    + by apply list_lookup_insert_eq.
    + split; [done|]. intros s' Hs'. cbn [bindings]. by apply lookup_insert_ne.
Qed.

(** After [define(s, v)] in a frame, [lookup(s)] from that frame returns
    [v]; the other frames, the parent of the frame and its other bindings are
    as before. *)
Theorem frame_define_then_lookup self s v (st : store) :
  self < List.length st ->
  exists st',
    frame_define self (Sym s) v st = Ok tt st'
    /\ frame_lookup self s st' = Ok v st'
    /\ List.length st' = List.length st
    /\ (forall f, f <> self -> st' !! f = st !! f)
    /\ (forall fr, st !! self = Some fr ->
          exists fr', st' !! self = Some fr'
                      /\ parent fr' = parent fr
                      /\ forall s', s' <> s -> bindings fr' !! s' = bindings fr !! s').
Proof. exact (frame_define_spec self s v st). Qed.

Lemma frame_define_then_lookup_witness :
  exists st',
    frame_define 0 (Sym "x"%string) (Num 3) demo_store = Ok tt st'
    /\ frame_lookup 0 "x"%string st' = Ok (Num 3) st'.
Proof.
  destruct (frame_define_then_lookup 0 "x"%string (Num 3) demo_store
              ltac:(simpl; lia)) as (st' & Hdef & Hlook & _).
  exists st'. split; [exact Hdef|exact Hlook].
Defined.

(** In a store whose frames were built after their parents, a frame that
    does not bind a name answers a lookup as its parent does, and a frame that
    binds it answers with its own binding, whatever the ancestors bind.  So a
    definition made in a frame is seen from a child that does not define the
    name itself. *)
Theorem frame_lookup_follows_parent c fr s (st : store) :
  store_wf st -> st !! c = Some fr ->
  (forall v, bindings fr !! s = Some v -> frame_lookup c s st = Ok v st)
  /\ (forall p, bindings fr !! s = None -> parent fr = Some p ->
        frame_lookup c s st = frame_lookup p s st
        /\ forall v, exists st',
             frame_define p (Sym s) v st = Ok tt st'
             /\ frame_lookup c s st' = Ok v st')
  /\ (bindings fr !! s = None -> parent fr = None ->
        frame_lookup c s st = Raise (SchemeError (UnknownIdentifier s)) st).
Proof.
  intros Hwf Hfr.
  assert (Hstep : forall (st0 : store) fr0 p,
             store_wf st0 -> st0 !! c = Some fr0 ->
             bindings fr0 !! s = None -> parent fr0 = Some p ->
             frame_lookup c s st0 = frame_lookup p s st0).
  { intros st0 fr0 p Hwf0 Hfr0 Hb Hp. unfold frame_lookup.
    rewrite (lookup_chain_S (List.length st0)), Hfr0, Hb, Hp.
    pose proof (Hwf0 _ _ _ Hfr0 Hp). pose proof (lookup_lt_Some _ _ _ Hfr0).
    apply lookup_chain_enough; [done|lia|lia]. }
  split; [|split].
  - intros v Hb. unfold frame_lookup. by rewrite lookup_chain_S, Hfr, Hb.
  - intros p Hb Hp. split; [by eapply Hstep|].
    intros v. pose proof (Hwf _ _ _ Hfr Hp) as Hlt.
    pose proof (lookup_lt_Some _ _ _ Hfr) as Hc.
    destruct (lookup_lt_is_Some_2 st p ltac:(lia)) as [frp Hfrp].
    destruct (frame_define_spec p s v st ltac:(lia))
      as (st' & Hdef & Hlook & _ & Hother & _).
    exists st'. split; [done|].
    assert (Hwf' : store_wf st').
    { unfold frame_define in Hdef. rewrite Hfrp in Hdef. simplify_eq.
      by apply store_wf_define. }
    rewrite (Hstep st' fr p Hwf'); [done| |done|done].
    rewrite Hother by lia. done.
  - intros Hb Hp. unfold frame_lookup. by rewrite lookup_chain_S, Hfr, Hb, Hp.
Qed.

Lemma two_sites_store_wf : store_wf two_sites_store.
Proof.
  intros f fr p Hf Hp.
  destruct f as [|[|[|f]]]; simpl in Hf; simplify_eq; simpl in *; simplify_eq; lia.
Qed.

Lemma frame_lookup_follows_parent_witness :
  frame_lookup 1 "+"%string two_sites_store = frame_lookup 0 "+"%string two_sites_store
  /\ exists st',
       frame_define 0 (Sym "y"%string) (Num 9) two_sites_store = Ok tt st'
       /\ frame_lookup 1 "y"%string st' = Ok (Num 9) st'.
Proof.
  destruct (frame_lookup_follows_parent 1
              (mkFrame (<["x"%string := Num 1]> ∅) (Some 0)) "+"%string
              two_sites_store two_sites_store_wf eq_refl) as (_ & Hpar & _).
  destruct (frame_lookup_follows_parent 1
              (mkFrame (<["x"%string := Num 1]> ∅) (Some 0)) "y"%string
              two_sites_store two_sites_store_wf eq_refl) as (_ & Hpar' & _).
  split.
  - apply (Hpar 0); reflexivity.
  - apply (Hpar' 0 eq_refl eq_refl).
Defined.

Lemma lookup_chain_answers st s :
  store_wf st ->
  forall k f, f < k -> f < List.length st ->
    (exists v, lookup_chain k st f s = Ok v st)
    \/ lookup_chain k st f s = Raise (SchemeError (UnknownIdentifier s)) st.
Proof.
  intros Hwf. induction k as [|k IH]; intros f Hk Hf; [lia|].
  rewrite lookup_chain_S.
  destruct (lookup_lt_is_Some_2 _ _ Hf) as [fr Hfr]. rewrite Hfr.
  destruct (bindings fr !! s) as [v|]; [eauto|].
  destruct (parent fr) as [p|] eqn:Hp; [|by right].
  pose proof (Hwf _ _ _ Hfr Hp). apply IH; lia.
Qed.

(** In a store whose frames were built after their parents, [lookup] from a
    frame of the store always answers: it returns a value or raises "unknown
    identifier", and it leaves the store as it is. *)
Theorem frame_lookup_answers self s (st : store) :
  store_wf st -> self < List.length st ->
  (exists v, frame_lookup self s st = Ok v st)
  \/ frame_lookup self s st = Raise (SchemeError (UnknownIdentifier s)) st.
Proof.
  intros Hwf Hself. unfold frame_lookup. apply lookup_chain_answers; [done|lia|done].
Qed.

Lemma frame_lookup_answers_witness :
  (exists v, frame_lookup 2 "nowhere"%string two_sites_store = Ok v two_sites_store)
  \/ frame_lookup 2 "nowhere"%string two_sites_store
     = Raise (SchemeError (UnknownIdentifier "nowhere"%string)) two_sites_store.
Proof.
  apply (frame_lookup_answers 2 "nowhere"%string two_sites_store two_sites_store_wf).
  simpl. lia.
Defined.

(** ** The structure check *)

Lemma scheme_listp_is_slist expr :
  scheme_listp expr = true -> exists l, expr = slist l.
Proof.
  induction expr; simpl; try discriminate.
  - intros _. by exists [].
  - intros H. destruct (IHexpr2 H) as [l ->]. by exists (expr1 :: l).
Qed.

Lemma slist_inj l1 : forall l2, slist l1 = slist l2 -> l1 = l2.
Proof.
  induction l1 as [|x l1 IH]; intros [|y l2] H; simpl in H; try discriminate;
    [done|]. simplify_eq. f_equal. by apply IH.
Qed.

(** [check_form] returns exactly on the proper lists whose length lies
    between [min] and [max]; on any other value it raises one of its three
    SchemeErrors: "badly formed expression" on a value that is not a proper
    list, "too few operands" and "too many operands" on a proper list.  It
    never changes the store. *)
Theorem check_form_accepts_exactly expr min max (st : store) :
  (check_form expr min max st = Ok tt st
   <-> exists l, expr = slist l /\ min <= List.length l
                 /\ forall mx, max = Some mx -> List.length l <= mx)
  /\ (scheme_listp expr = false
      <-> check_form expr min max st = Raise (SchemeError BadlyFormedExpression) st)
  /\ (forall l, expr = slist l ->
        (List.length l < min
         <-> check_form expr min max st = Raise (SchemeError TooFewOperands) st)
        /\ ((min <= List.length l /\ exists mx, max = Some mx /\ mx < List.length l)
            <-> check_form expr min max st = Raise (SchemeError TooManyOperands) st)).
Proof.
  destruct (scheme_listp expr) eqn:Hl.
  - destruct (scheme_listp_is_slist _ Hl) as [l ->]. rewrite check_form_slist.
    split; [|split].
    + destruct (List.length l <? min) eqn:Hmin.
      * apply Nat.ltb_lt in Hmin. split; [done|].
        intros (l' & Heq & Hge & _). apply slist_inj in Heq. subst. lia.
      * apply Nat.ltb_ge in Hmin. destruct max as [mx|].
        -- destruct (mx <? List.length l) eqn:Hmax.
           ++ apply Nat.ltb_lt in Hmax. split; [done|].
              intros (l' & Heq & _ & Hle). apply slist_inj in Heq. subst.
              specialize (Hle mx eq_refl). lia.
           ++ apply Nat.ltb_ge in Hmax. split; [|done]. intros _.
              exists l. split; [done|]. split; [done|]. intros ? ?. simplify_eq. done.
        -- split; [|done]. intros _. exists l. split; [done|]. split; [done|]. done.
    + split; [done|].
      destruct (List.length l <? min); [done|]. destruct max as [mx|]; [|done].
      by destruct (mx <? List.length l).
    + intros l' Heq. apply slist_inj in Heq. subst l'.
      destruct (List.length l <? min) eqn:Hmin.
      * apply Nat.ltb_lt in Hmin. split; [done|]. split; [lia|done].
      * apply Nat.ltb_ge in Hmin. split.
        -- split; [lia|]. destruct max as [mx|]; [|done].
           by destruct (mx <? List.length l).
        -- destruct max as [mx|].
           ++ destruct (mx <? List.length l) eqn:Hmax.
              ** apply Nat.ltb_lt in Hmax. split; [done|]. eauto.
              ** apply Nat.ltb_ge in Hmax. split; [|done].
                 intros (_ & mx' & ? & ?). simplify_eq. lia.
           ++ split; [|done]. intros (_ & mx' & ? & ?). done.
  - unfold check_form. rewrite Hl. cbn [negb]. split; [|split].
    + split; [done|]. intros (l & -> & _). by rewrite scheme_listp_slist in Hl.
    + done.
    + intros l ->. by rewrite scheme_listp_slist in Hl.
Qed.

(** ** quote, if, and, or *)

(** [(quote x)] evaluates to [x] itself, which is not evaluated, under both
    evaluators and with any fuel but none; a quote form with no operand or
    with more than one is refused. *)
Theorem quote_returns_its_operand fn n x env (st : store) :
  scheme_optimized_eval fn (S n) (slist [Sym "quote"%string; x]) env false st
  = Ok (Val x) st
  /\ scheme_plain_eval fn (S n) (slist [Sym "quote"%string; x]) env false st
     = Ok (Val x) st
  /\ do_quote_form Nil env st = Raise (SchemeError TooFewOperands) st
  /\ (forall y l,
        do_quote_form (slist (x :: y :: l)) env st
        = Raise (SchemeError TooManyOperands) st).
Proof.
  assert (Hstep : forall ev,
             eval_combination fn ev (slist [Sym "quote"%string; x]) env st
             = Ok (Val x) st).
  { intros ev. unfold eval_combination. cbn [slist scheme_listp negb].
    unfold bind at 1. cbn [first ret]. unfold bind at 1. cbn [second ret].
    change (special_form ev (Sym "quote"%string))
      with (Some (fun e env0 => as_result (do_quote_form e env0))).
    unfold as_result, do_quote_form, bind.
    change (Pair x Nil) with (slist [x]). by rewrite check_form_slist. }
  split; [|split; [|split]].
  - rewrite scheme_optimized_eval_combination by reflexivity.
    cbn [trampoline]. unfold bind. rewrite Hstep. by destruct n.
  - rewrite scheme_plain_eval_combination by reflexivity. apply Hstep.
  - reflexivity.
  - intros y l. unfold do_quote_form, bind. by rewrite check_form_slist.
Qed.

(** An [if] form evaluates its test; on a true value the consequent is
    evaluated with the tail flag, on the false value the alternative is, and
    without an alternative the form returns None.  With fewer than two or
    more than three operands nothing is evaluated. *)
Theorem if_form_chooses_branch ev test conseq env (st : store) v st1 :
  ev test env false st = Ok (Val v) st1 ->
  do_if_form ev (slist [test; conseq]) env st
  = (if scheme_true v then ev conseq env true st1 else Ok (Val NoneV) st1)
  /\ (forall alt,
        do_if_form ev (slist [test; conseq; alt]) env st
        = if scheme_true v then ev conseq env true st1 else ev alt env true st1)
  /\ do_if_form ev (slist [test]) env st = Raise (SchemeError TooFewOperands) st
  /\ (forall alt x l,
        do_if_form ev (slist (test :: conseq :: alt :: x :: l)) env st
        = Raise (SchemeError TooManyOperands) st).
Proof.
  intros Hev. split; [|split; [|split]].
  - unfold do_if_form, bind at 1. rewrite check_form_slist. cbn [List.length Nat.ltb Nat.leb].
    unfold bind at 1. cbn [slist first ret]. unfold bind at 1.
    rewrite (eval_value_Ok _ _ _ _ _ _ Hev). by destruct (scheme_true v).
  - intros alt. unfold do_if_form, bind at 1. rewrite check_form_slist.
    cbn [List.length Nat.ltb Nat.leb].
    unfold bind at 1. cbn [slist first ret]. unfold bind at 1.
    rewrite (eval_value_Ok _ _ _ _ _ _ Hev). by destruct (scheme_true v).
  - reflexivity.
  - intros alt x l. unfold do_if_form, bind. by rewrite check_form_slist.
Qed.

Lemma if_form_chooses_branch_witness :
  do_if_form (scheme_optimized_eval demo_primitive_fn 2)
    (slist [slist [Sym "="%string; Num 1; Num 2]; Num 7]) 0 demo_store
  = Ok (Val NoneV) demo_store.
Proof.
  apply (proj1 (if_form_chooses_branch (scheme_optimized_eval demo_primitive_fn 2)
                  (slist [Sym "="%string; Num 1; Num 2]) (Num 7) 0 demo_store
                  (Bool false) demo_store eq_refl)).
Defined.

Lemma eval_value_and_pass {B} ev e env st v st1 (k : value -> M B) :
  ev e env false st = Ok (Val v) st1 ->
  bind (eval_value ev e env) k st = k v st1.
Proof. intros H. unfold bind. by rewrite (eval_value_Ok _ _ _ _ _ _ H). Qed.

Lemma and_loop_passes ev env init : forall first_ y rest st st1,
  and_passes ev env (first_ :: init) st st1 ->
  and_loop ev first_ (slist (init ++ y :: rest)) env st
  = and_loop ev y (slist rest) env st1.
Proof.
  induction init as [|e init IH]; intros first_ y rest st st1 Hrun;
    inversion Hrun as [|? ? v ? st' ? Hev Hv Hrest]; subst.
  - inversion Hrest; subst. cbn [app slist and_loop].
    rewrite (eval_value_and_pass _ _ _ _ _ _ _ Hev). by rewrite Hv.
  - cbn [app slist and_loop].
    rewrite (eval_value_and_pass _ _ _ _ _ _ _ Hev). rewrite Hv. by apply IH.
Qed.

Lemma do_and_form_passes ev env pre y rest st st1 :
  and_passes ev env pre st st1 ->
  do_and_form ev (slist (pre ++ y :: rest)) env st
  = and_loop ev y (slist rest) env st1.
Proof.
  intros Hrun. unfold do_and_form, bind at 1. rewrite len_slist.
  destruct pre as [|p init].
  - inversion Hrun; subst. reflexivity.
  - cbn [app List.length Nat.eqb slist]. unfold bind at 1. cbn [first ret].
    unfold bind at 1. cbn [second ret]. by apply and_loop_passes.
Qed.

(** [(and)] is true.  When the operands [pre] of an [and] have been
    evaluated and none was false: if the next operand is the last one, the
    form is that operand evaluated with the tail flag; if it is not the last
    and evaluates to the false value, the form returns false and the
    remaining operands are not evaluated. *)
Theorem and_form_short_circuits ev env pre (st st1 : store) :
  and_passes ev env pre st st1 ->
  (forall last,
      do_and_form ev (slist (pre ++ [last])) env st = ev last env true st1)
  /\ (forall e next post st2,
        ev e env false st1 = Ok (Val (Bool false)) st2 ->
        do_and_form ev (slist (pre ++ e :: next :: post)) env st
        = Ok (Val (Bool false)) st2)
  /\ do_and_form ev Nil env st = Ok (Val (Bool true)) st.
Proof.
  intros Hrun. split; [|split].
  - intros last. by rewrite (do_and_form_passes _ _ _ _ _ _ _ Hrun).
  - intros e next post st2 Hev. rewrite (do_and_form_passes _ _ _ _ _ _ _ Hrun).
    cbn [slist and_loop]. by rewrite (eval_value_and_pass _ _ _ _ _ _ _ Hev).
  - reflexivity.
Qed.

Lemma and_form_short_circuits_witness :
  do_and_form (scheme_optimized_eval demo_primitive_fn 2)
    (slist [Num 1; Bool false; Sym "unbound"%string]) 0 demo_store
  = Ok (Val (Bool false)) demo_store.
Proof.
  assert (Hrun : and_passes (scheme_optimized_eval demo_primitive_fn 2) 0
                   [Num 1] demo_store demo_store).
  { apply (and_passes_cons _ _ (Num 1) [] (Num 1) demo_store demo_store);
      [reflexivity|reflexivity|constructor]. }
  apply (proj1 (proj2 (and_form_short_circuits _ _ _ _ _ Hrun))
           (Bool false) (Sym "unbound"%string) [] demo_store).
  reflexivity.
Defined.

Lemma or_loop_passes ev env init : forall first_ y rest st st1,
  or_passes ev env (first_ :: init) st st1 ->
  or_loop ev first_ (slist (init ++ y :: rest)) env st
  = or_loop ev y (slist rest) env st1.
Proof.
  induction init as [|e init IH]; intros first_ y rest st st1 Hrun;
    inversion Hrun as [|? ? ? st' ? Hev Hrest]; subst.
  - inversion Hrest; subst. cbn [app slist or_loop].
    by rewrite (eval_value_and_pass _ _ _ _ _ _ _ Hev).
  - cbn [app slist or_loop].
    rewrite (eval_value_and_pass _ _ _ _ _ _ _ Hev). cbn [scheme_true]. by apply IH.
Qed.

Lemma do_or_form_passes ev env pre y rest st st1 :
  or_passes ev env pre st st1 ->
  do_or_form ev (slist (pre ++ y :: rest)) env st
  = or_loop ev y (slist rest) env st1.
Proof.
  intros Hrun. unfold do_or_form, bind at 1. rewrite len_slist.
  destruct pre as [|p init].
  - inversion Hrun; subst. reflexivity.
  - cbn [app List.length Nat.eqb slist]. unfold bind at 1. cbn [first ret].
    unfold bind at 1. cbn [second ret]. by apply or_loop_passes.
Qed.

(** [(or)] is false.  When the operands [pre] of an [or] have been
    evaluated and all were false: if the next operand is the last one, the
    form is that operand evaluated with the tail flag; if it is not the last
    and evaluates to a true value, the form returns that value and the
    remaining operands are not evaluated. *)
Theorem or_form_short_circuits ev env pre (st st1 : store) :
  or_passes ev env pre st st1 ->
  (forall last,
      do_or_form ev (slist (pre ++ [last])) env st = ev last env true st1)
  /\ (forall e next post v st2,
        ev e env false st1 = Ok (Val v) st2 -> scheme_true v = true ->
        do_or_form ev (slist (pre ++ e :: next :: post)) env st = Ok (Val v) st2)
  /\ do_or_form ev Nil env st = Ok (Val (Bool false)) st.
Proof.
  intros Hrun. split; [|split].
  - intros last. by rewrite (do_or_form_passes _ _ _ _ _ _ _ Hrun).
  - intros e next post v st2 Hev Hv. rewrite (do_or_form_passes _ _ _ _ _ _ _ Hrun).
    cbn [slist or_loop]. rewrite (eval_value_and_pass _ _ _ _ _ _ _ Hev).
    by rewrite Hv.
  - reflexivity.
Qed.

Lemma or_form_short_circuits_witness :
  do_or_form (scheme_optimized_eval demo_primitive_fn 2)
    (slist [Bool false; Num 5; Sym "unbound"%string]) 0 demo_store
  = Ok (Val (Num 5)) demo_store.
Proof.
  assert (Hrun : or_passes (scheme_optimized_eval demo_primitive_fn 2) 0
                   [Bool false] demo_store demo_store).
  { apply (or_passes_cons _ _ (Bool false) [] demo_store demo_store);
      [reflexivity|constructor]. }
  apply (proj1 (proj2 (or_form_short_circuits _ _ _ _ _ Hrun))
           (Num 5) (Sym "unbound"%string) [] (Num 5) demo_store);
    reflexivity.
Defined.

(** ** define, lambda and mu *)

Lemma check_formals_symbols_nodup names st :
  NoDup names -> check_formals (symbols names) st = Ok tt st.
Proof. intros H. rewrite check_formals_symbols. by rewrite bool_decide_eq_true_2. Qed.

Lemma do_lambda_form_symbols names body env st :
  body <> [] ->
  do_lambda_form (slist (symbols names :: body)) env st
  = if bool_decide (NoDup names)
    then Ok (LambdaProcedure (symbols names) (slist body) env) st
    else Raise (SchemeError BadFormals) st.
Proof.
  intros Hbody. unfold do_lambda_form, bind at 1. rewrite check_form_slist.
  destruct body as [|b body]; [done|]. cbn [List.length Nat.ltb Nat.leb].
  unfold bind at 1. cbn [slist first ret]. unfold bind at 1.
  rewrite check_formals_symbols. by destruct (bool_decide (NoDup names)).
Qed.

(** A lambda form with a list of distinct symbols as formals and at least
    one body expression returns a LambdaProcedure that holds the formals, the
    body and the frame the form is evaluated in; a mu form returns a
    MuProcedure with the same formals and body, whatever the frame.  A
    repeated formal is refused, and so is a form without a body. *)
Theorem lambda_form_captures_its_frame names b body env (st : store) :
  do_lambda_form (slist (symbols names :: b :: body)) env st
  = (if bool_decide (NoDup names)
     then Ok (LambdaProcedure (symbols names) (slist (b :: body)) env) st
     else Raise (SchemeError BadFormals) st)
  /\ do_mu_form (slist (symbols names :: b :: body)) env st
     = (if bool_decide (NoDup names)
        then Ok (MuProcedure (symbols names) (slist (b :: body))) st
        else Raise (SchemeError BadFormals) st)
  /\ do_lambda_form (slist [symbols names]) env st
     = Raise (SchemeError TooFewOperands) st
  /\ do_mu_form (slist [symbols names]) env st
     = Raise (SchemeError TooFewOperands) st.
Proof.
  split; [by apply do_lambda_form_symbols|]. split; [|split; reflexivity].
  unfold do_mu_form, bind at 1. rewrite check_form_slist.
  cbn [List.length Nat.ltb Nat.leb].
  unfold bind at 1. cbn [slist first ret]. unfold bind at 1.
  rewrite check_formals_symbols. by destruct (bool_decide (NoDup names)).
Qed.

(** [(define s e)] evaluates [e] in the current frame, binds [s] to its value
    in that frame and returns the symbol [s]: a lookup of [s] from the frame
    then yields the value. *)
Theorem define_form_binds_value ev s e env (st : store) v st1 :
  ev e env false st = Ok (Val v) st1 ->
  env < List.length st1 ->
  exists st2,
    do_define_form ev (slist [Sym s; e]) env st = Ok (Sym s) st2
    /\ frame_lookup env s st2 = Ok v st2
    /\ List.length st2 = List.length st1.
Proof.
  intros Hev Henv.
  destruct (frame_define_spec env s v st1 Henv)
    as (st2 & Hdef & Hlook & Hlen & _).
  exists st2. split; [|done].
  unfold do_define_form, bind at 1. rewrite check_form_slist.
  cbn [List.length Nat.ltb Nat.leb]. unfold bind at 1. cbn [slist first ret].
  unfold bind at 1.
  change (Pair (Sym s) (Pair e Nil)) with (slist [Sym s; e]).
  rewrite check_form_slist. cbn [List.length Nat.ltb Nat.leb].
  unfold bind at 1. cbn [slist second ret]. unfold bind at 1. cbn [first ret].
  rewrite (eval_value_and_pass _ _ _ _ _ _ _ Hev).
  unfold bind. by rewrite Hdef.
Qed.

Lemma define_form_binds_value_witness :
  exists st2,
    do_define_form (scheme_optimized_eval demo_primitive_fn 2)
      (slist [Sym "x"%string; slist [Sym "+"%string; Num 1; Num 2]]) 0 demo_store
    = Ok (Sym "x"%string) st2
    /\ frame_lookup 0 "x"%string st2 = Ok (Num 3) st2.
Proof.
  destruct (define_form_binds_value (scheme_optimized_eval demo_primitive_fn 2)
              "x"%string (slist [Sym "+"%string; Num 1; Num 2]) 0 demo_store
              (Num 3) demo_store eq_refl ltac:(simpl; lia))
    as (st2 & Hdef & Hlook & _).
  exists st2. split; [exact Hdef|exact Hlook].
Defined.

(** [(define (f formals...) body...)] binds [f], in the current frame, to
    the LambdaProcedure of the formals and the body closed over that frame,
    and returns the symbol [f]; no expression is evaluated.  A target that
    is neither a symbol nor a Pair that starts with a symbol is refused. *)
Theorem define_form_defines_procedure ev f names b body env (st : store) :
  NoDup names -> env < List.length st ->
  (exists st2,
     do_define_form ev
       (slist (Pair (Sym f) (symbols names) :: b :: body)) env st
     = Ok (Sym f) st2
     /\ frame_lookup env f st2
        = Ok (LambdaProcedure (symbols names) (slist (b :: body)) env) st2)
  /\ (forall z e,
        do_define_form ev (slist [Num z; e]) env st
        = Raise (SchemeError NonSymbol) st).
Proof.
  intros Hnd Henv. split.
  - destruct (frame_define_spec env f
                (LambdaProcedure (symbols names) (slist (b :: body)) env) st Henv)
      as (st2 & Hdef & Hlook & _).
    exists st2. split; [|done].
    unfold do_define_form, bind at 1. rewrite check_form_slist.
    cbn [List.length Nat.ltb Nat.leb]. unfold bind at 1. cbn [slist first ret].
    unfold bind at 1. cbn [second ret]. unfold bind at 1.
    change (Pair (symbols names) (Pair b (slist body)))
      with (slist (symbols names :: b :: body)).
    rewrite do_lambda_form_symbols by done.
    rewrite bool_decide_eq_true_2 by done.
    unfold bind. by rewrite Hdef.
  - intros z e. reflexivity.
Qed.

Lemma define_form_defines_procedure_witness :
  exists st2,
    do_define_form (scheme_optimized_eval demo_primitive_fn 2)
      (slist [Pair (Sym "id"%string) (symbols ["x"%string]); Sym "x"%string])
      0 demo_store
    = Ok (Sym "id"%string) st2
    /\ frame_lookup 0 "id"%string st2
       = Ok (LambdaProcedure (symbols ["x"%string]) (slist [Sym "x"%string]) 0) st2.
Proof.
  apply (proj1 (define_form_defines_procedure
                  (scheme_optimized_eval demo_primitive_fn 2)
                  "id"%string ["x"%string] (Sym "x"%string) [] 0 demo_store
                  (NoDup_singleton _) ltac:(simpl; lia))).
Defined.

(** ** Combinations and calls *)

(** A combination that is not a proper list is refused with "malformed
    list".  When the operator is not a special form and evaluates to a value
    that is not a procedure, the call is refused with "cannot call", and no
    operand is evaluated. *)
Theorem combination_needs_list_and_procedure fn ev op rest env (st : store) :
  (scheme_listp rest = false ->
   eval_combination fn ev (Pair op rest) env st = Raise (SchemeError MalformedList) st)
  /\ (forall v st1,
        scheme_listp rest = true ->
        special_form ev op = None ->
        ev op env false st = Ok (Val v) st1 ->
        scheme_procedurep v = false ->
        eval_combination fn ev (Pair op rest) env st
        = Raise (SchemeError CannotCall) st1).
Proof.
  split.
  - intros Hl. unfold eval_combination. cbn [scheme_listp]. by rewrite Hl.
  - intros v st1 Hl Hsf Hev Hproc. unfold eval_combination. cbn [scheme_listp].
    rewrite Hl. cbn [negb]. unfold bind at 1. cbn [first ret].
    unfold bind at 1. cbn [second ret]. rewrite Hsf.
    rewrite (eval_value_and_pass _ _ _ _ _ _ _ Hev). by rewrite Hproc.
Qed.

Lemma combination_needs_list_and_procedure_witness :
  eval_combination demo_primitive_fn (scheme_optimized_eval demo_primitive_fn 2)
    (Pair (Num 1) (Num 2)) 0 demo_store
  = Raise (SchemeError MalformedList) demo_store
  /\ eval_combination demo_primitive_fn (scheme_optimized_eval demo_primitive_fn 2)
       (Pair (Num 1) (slist [Sym "unbound"%string])) 0 demo_store
     = Raise (SchemeError CannotCall) demo_store.
Proof.
  split.
  - apply (proj1 (combination_needs_list_and_procedure demo_primitive_fn
                    (scheme_optimized_eval demo_primitive_fn 2)
                    (Num 1) (Num 2) 0 demo_store)).
    reflexivity.
  - apply (proj2 (combination_needs_list_and_procedure demo_primitive_fn
                    (scheme_optimized_eval demo_primitive_fn 2)
                    (Num 1) (slist [Sym "unbound"%string]) 0 demo_store)
             (Num 1) demo_store); reflexivity.
Defined.

(** Applying a user-defined procedure to a list of arguments whose length
    differs from that of its formals raises the bare SchemeError of
    [make_child_frame]; the body is not evaluated.  Applying a value that is
    not a procedure raises "cannot call". *)
Theorem apply_checks_number_of_arguments fn ev names body denv vals env (st : store) :
  List.length names <> List.length vals ->
  scheme_apply fn ev (LambdaProcedure (symbols names) body denv) (slist vals) env st
  = Raise (SchemeError ChildFrameLengths) (st ++ [mkFrame ∅ (Some denv)])
  /\ scheme_apply fn ev (MuProcedure (symbols names) body) (slist vals) env st
     = Raise (SchemeError ChildFrameLengths) (st ++ [mkFrame ∅ (Some env)])
  /\ (forall v, scheme_procedurep v = false ->
        scheme_apply fn ev v (slist vals) env st = Raise (SchemeError CannotCall) st).
Proof.
  intros Hlen.
  assert (Hlen' : List.length (Sym <$> names) <> List.length vals)
    by (by rewrite length_fmap).
  split; [|split].
  - unfold scheme_apply, procedure_apply, make_call_frame. cbn [scheme_procedurep negb].
    unfold bind. unfold symbols. by rewrite make_child_frame_lengths.
  - unfold scheme_apply, procedure_apply, make_call_frame. cbn [scheme_procedurep negb].
    unfold bind. unfold symbols. by rewrite make_child_frame_lengths.
  - intros v Hv. unfold scheme_apply. by rewrite Hv.
Qed.

Lemma apply_checks_number_of_arguments_witness :
  scheme_apply demo_primitive_fn (scheme_optimized_eval demo_primitive_fn 2)
    (LambdaProcedure (symbols ["x"%string]) (slist [Sym "x"%string]) 0)
    (slist [Num 1; Num 2]) 0 demo_store
  = Raise (SchemeError ChildFrameLengths) (demo_store ++ [mkFrame ∅ (Some 0)]).
Proof.
  apply (proj1 (apply_checks_number_of_arguments demo_primitive_fn
                  (scheme_optimized_eval demo_primitive_fn 2)
                  ["x"%string] (slist [Sym "x"%string]) 0 [Num 1; Num 2] 0 demo_store
                  ltac:(simpl; lia))).
Defined.

Lemma python_args_slist l st : python_args (slist l) st = Ok l st.
Proof.
  induction l as [|x l IH]; [done|]. cbn [slist python_args]. unfold bind.
  by rewrite IH.
Qed.

(** A primitive applied to a proper list of arguments calls its host
    function on exactly the elements of the list, with the frame of the call
    as last argument when the primitive asks for it; a host TypeError comes
    out as a SchemeError and never as a TypeError, any other outcome of the
    host function is handed on unchanged. *)
Theorem primitive_apply_wraps_type_errors fn name use_env l env (st : store) :
  primitive_apply fn name use_env (slist l) env st
  = match fn name l (if use_env then Some env else None) st with
    | Raise TypeError st' => Raise (SchemeError PrimitiveTypeError) st'
    | o => o
    end
  /\ forall st', primitive_apply fn name use_env (slist l) env st <> Raise TypeError st'.
Proof.
  assert (Heq : primitive_apply fn name use_env (slist l) env st
          = match fn name l (if use_env then Some env else None) st with
            | Raise TypeError st' => Raise (SchemeError PrimitiveTypeError) st'
            | o => o
            end).
  { unfold primitive_apply, bind. by rewrite python_args_slist. }
  split; [done|]. intros st'. rewrite Heq.
  destruct (fn name l _ st) as [a st0|e st0|]; [done| |done].
  destruct e; discriminate.
Qed.

(** ** Suspensions stay inside the loop *)

Lemma trampoline_returns_value step k : forall r st r' st',
  trampoline step k r st = Ok r' st' -> exists v, r' = Val v.
Proof.
  induction k as [|k IH]; intros r st r' st' H; destruct r as [v|e env];
    cbn [trampoline] in H; unfold ret in H; simplify_eq; eauto.
  apply bind_Ok_inv in H as (r1 & st1 & _ & H). by eapply IH.
Qed.

(** Called without the tail flag, [scheme_optimized_eval] never returns an
    Evaluate: whatever it returns is a value. *)
Theorem scheme_optimized_eval_returns_value fn n expr env (st : store) r st' :
  scheme_optimized_eval fn n expr env false st = Ok r st' ->
  exists v, r = Val v.
Proof.
  intros H. destruct (atomic expr) eqn:Ha.
  - rewrite scheme_optimized_eval_atomic in H by done. by eapply eval_atom_Val.
  - destruct n as [|n].
    + apply atomic_false in Ha as [Hsym Hself].
      destruct expr; simpl in *; try discriminate.
    + rewrite scheme_optimized_eval_combination in H by done.
      by eapply trampoline_returns_value.
Qed.

Lemma scheme_optimized_eval_returns_value_witness :
  exists v,
    Val (Num 4) = Val v.
Proof.
  apply (scheme_optimized_eval_returns_value demo_primitive_fn 3
           if_tail_call_program 0 demo_store (Val (Num 4)) demo_store).
  reflexivity.
Defined.

(** [complete_eval] finishes what an evaluation in tail position left:
    evaluating with the tail flag and completing the result is the same as
    evaluating without the flag.  A result that is no Evaluate is returned
    as it is. *)
Theorem complete_eval_finishes_tail_evaluation fn n expr env (st : store) :
  (r <- scheme_optimized_eval fn n expr env true ;;
   complete_eval (scheme_optimized_eval fn n) r) st
  = scheme_optimized_eval fn n expr env false st
  /\ forall ev v, complete_eval ev (Val v) st = Ok (Val v) st.
Proof.
  split; [|done]. destruct (atomic expr) eqn:Ha.
  - rewrite !scheme_optimized_eval_atomic by done. unfold bind.
    destruct (eval_atom expr env st) as [r st1| |] eqn:He; [|done|done].
    by destruct (eval_atom_Val _ _ _ _ _ He) as [v ->].
  - apply atomic_false in Ha as [Hsym Hself].
    by rewrite scheme_optimized_eval_tail.
Qed.

(** ** The store only grows *)

Lemma store_grows_refl st : store_grows st st.
Proof. intros f fr Hf. exists fr. by split. Qed.

Lemma store_grows_trans st1 st2 st3 :
  store_grows st1 st2 -> store_grows st2 st3 -> store_grows st1 st3.
Proof.
  intros H12 H23 f fr Hf.
  destruct (H12 f fr Hf) as (fr2 & Hf2 & Hp2 & Hd2).
  destruct (H23 f fr2 Hf2) as (fr3 & Hf3 & Hp3 & Hd3).
  exists fr3. split; [done|]. split; [congruence|]. set_solver.
Qed.

Lemma grows_ret {A} (a : A) : grows (ret a).
Proof. intros st. apply store_grows_refl. Qed.

Lemma grows_raise {A} e : grows (@raise A e).
Proof. intros st. apply store_grows_refl. Qed.

Lemma grows_bind {A B} (c : M A) (k : A -> M B) :
  grows c -> (forall a, grows (k a)) -> grows (bind c k).
Proof.
  intros Hc Hk st. unfold bind. specialize (Hc st).
  destruct (c st) as [a st1|e st1|]; [|done|done].
  specialize (Hk a st1). simpl in Hc.
  destruct (k a st1) as [b st2|e st2|]; simpl in *; [| |done];
    by eapply store_grows_trans.
Qed.

Lemma grows_first x : grows (first x).
Proof. destruct x; first [apply grows_ret | apply grows_raise]. Qed.

Lemma grows_second x : grows (second x).
Proof. destruct x; first [apply grows_ret | apply grows_raise]. Qed.

Lemma grows_len x : grows (len x).
Proof. unfold len. destruct (proper_length x); [apply grows_ret|apply grows_raise]. Qed.

Lemma grows_check_form expr min max : grows (check_form expr min max).
Proof.
  unfold check_form. destruct (negb (scheme_listp expr)); [apply grows_raise|].
  apply grows_bind; [apply grows_len|]. intros n.
  destruct (n <? min); [apply grows_raise|].
  destruct max as [mx|]; [|apply grows_ret].
  destruct (mx <? n); [apply grows_raise|apply grows_ret].
Qed.

Lemma grows_check_formal par x next :
  (forall par', grows (next par')) -> grows (check_formal par x next).
Proof.
  intros H. unfold check_formal. destruct x; try apply grows_raise.
  destruct (bool_decide (name ∈ par)); [apply grows_raise|apply H].
Qed.

Lemma grows_check_formals_loop_tail formals :
  (forall par, grows (check_formals_loop par formals))
  /\ match formals with
     | Pair _ d => forall par, grows (check_formals_loop par d)
     | _ => True
     end.
Proof.
  induction formals as [| | | | | |x IHx rest IHrest| | |];
    try (split; [intros par; apply grows_raise|exact I]).
  - split; [intros par; apply grows_ret|exact I].
  - destruct IHx as [_ IHx]. destruct IHrest as [IHrest _].
    split; [|exact IHrest]. intros par.
    destruct x; cbn [check_formals_loop];
      try (apply grows_check_formal; intros par'; apply IHrest).
    apply grows_bind; [apply grows_len|]. intros n.
    destruct (n <? 3); [apply grows_raise|].
    apply grows_check_formal. intros par'. apply IHx.
Qed.

Lemma grows_check_formals formals : grows (check_formals formals).
Proof. apply grows_check_formals_loop_tail. Qed.

Lemma grows_new_Frame p : grows (new_Frame p).
Proof.
  intros st f fr Hf. exists fr. split; [|done]. by apply lookup_app_l_Some.
Qed.

Lemma lookup_chain_store k : forall st f s,
  match lookup_chain k st f s with
  | Ok _ st' | Raise _ st' => st' = st
  | OutOfFuel => True
  end.
Proof.
  induction k as [|k IH]; intros st f s; [done|]. rewrite lookup_chain_S.
  destruct (st !! f) as [fr|]; [|done].
  destruct (bindings fr !! s); [done|].
  destruct (parent fr); [apply IH|done].
Qed.

Lemma grows_frame_lookup self s : grows (frame_lookup self s).
Proof.
  intros st. unfold frame_lookup.
  pose proof (lookup_chain_store (S (List.length st)) st self s) as H.
  destruct (lookup_chain _ st self s); simpl; subst; try done;
    apply store_grows_refl.
Qed.

Lemma grows_frame_define self symbol v : grows (frame_define self symbol v).
Proof.
  intros st. unfold frame_define.
  destruct (st !! self) as [fr|] eqn:Hfr; [|apply store_grows_refl].
  destruct symbol; try apply store_grows_refl.
  intros f fr0 Hf. destruct (decide (f = self)) as [->|Hne].
  - simplify_eq. eexists. split.
    + apply list_lookup_insert_eq. by eapply lookup_lt_Some.
    + split; [done|]. cbn [bindings]. set_solver.
  - exists fr0. split; [|done]. by rewrite list_lookup_insert_ne.
Qed.

Lemma grows_bind_formals child formals : forall vals,
  grows (bind_formals child formals vals).
Proof.
  induction formals as [| | | | | |a _ d IHd| | |]; intros vals;
    cbn [bind_formals];
    try (destruct vals; first [apply grows_ret | apply grows_raise]).
  destruct vals; try first [apply grows_ret | apply grows_raise].
  apply grows_bind; [apply grows_frame_define|]. intros _. apply IHd.
Qed.

Lemma grows_make_child_frame self formals vals :
  grows (make_child_frame self formals vals).
Proof.
  unfold make_child_frame.
  apply grows_bind; [apply grows_new_Frame|]. intros child.
  apply grows_bind; [apply grows_len|]. intros nf.
  apply grows_bind; [apply grows_len|]. intros nv.
  destruct (Nat.eqb nf nv); [|apply grows_raise].
  apply grows_bind; [apply grows_bind_formals|]. intros _. apply grows_ret.
Qed.

Lemma grows_python_args args : grows (python_args args).
Proof.
  induction args; cbn [python_args];
    try first [apply grows_ret | apply grows_raise].
  apply grows_bind; [done|]. intros l. apply grows_ret.
Qed.

Lemma grows_do_lambda_form expressions env : grows (do_lambda_form expressions env).
Proof.
  unfold do_lambda_form.
  repeat first [apply grows_ret | apply grows_check_form | apply grows_first
               | apply grows_second | apply grows_check_formals
               | apply grows_bind; [|intros ?]].
Qed.

Lemma grows_do_mu_form expressions env : grows (do_mu_form expressions env).
Proof.
  unfold do_mu_form.
  repeat first [apply grows_ret | apply grows_check_form | apply grows_first
               | apply grows_second | apply grows_check_formals
               | apply grows_bind; [|intros ?]].
Qed.

Lemma grows_do_quote_form expressions env : grows (do_quote_form expressions env).
Proof.
  unfold do_quote_form.
  apply grows_bind; [apply grows_check_form|]. intros _. apply grows_first.
Qed.

Section Growth.

Variable fn : string -> list value -> option frame -> M value.
Hypothesis Hfn : forall name args env, grows (fn name args env).
Variable ev : value -> frame -> bool -> M result.
Hypothesis Hev : forall e env b, grows (ev e env b).

Lemma grows_primitive_apply name use_env args env :
  grows (primitive_apply fn name use_env args env).
Proof.
  unfold primitive_apply. apply grows_bind; [apply grows_python_args|].
  intros l st. pose proof (Hfn name l (if use_env then Some env else None) st) as H.
  destruct (fn name l _ st) as [a st'|e st'|]; [done| |done].
  by destruct e.
Qed.

Lemma grows_eval_value e env : grows (eval_value ev e env).
Proof.
  unfold eval_value. apply grows_bind; [apply Hev|].
  intros [v|e' env']; [apply grows_ret|apply grows_raise].
Qed.

Ltac grows_step :=
  first
    [ apply grows_ret | apply grows_raise | apply Hev | apply grows_eval_value
    | apply grows_check_form | apply grows_check_formals
    | apply grows_first | apply grows_second | apply grows_len
    | apply grows_frame_define | apply grows_make_child_frame
    | apply grows_do_lambda_form | apply grows_primitive_apply
    | apply grows_bind; [|intros ?]
    | match goal with
      | |- grows (if ?b then _ else _) => destruct b
      | |- grows (match ?x with _ => _ end) => destruct x
      end ].

Lemma grows_eval_all_loop rest : forall first_ env,
  grows (eval_all_loop ev first_ rest env).
Proof.
  induction rest; intros ? ?; cbn [eval_all_loop]; repeat grows_step.
  apply IHrest2.
Qed.

Lemma grows_eval_all expressions env : grows (eval_all ev expressions env).
Proof.
  unfold eval_all. destruct expressions; repeat grows_step;
    apply grows_eval_all_loop.
Qed.

Lemma grows_map_eval arg_exprs : forall env, grows (map_eval ev arg_exprs env).
Proof.
  induction arg_exprs; intros ?; cbn [map_eval]; repeat grows_step.
  apply IHarg_exprs2.
Qed.

Lemma grows_scheme_apply procedure args env :
  grows (scheme_apply fn ev procedure args env).
Proof.
  unfold scheme_apply, procedure_apply, make_call_frame, as_result.
  destruct procedure; cbn [scheme_procedurep negb]; repeat grows_step;
    apply grows_eval_all.
Qed.

Lemma grows_eval_call self arg_exprs env :
  grows (eval_call fn ev self arg_exprs env).
Proof.
  unfold eval_call. apply grows_bind; [apply grows_map_eval|].
  intros args. apply grows_scheme_apply.
Qed.

Lemma grows_do_define_form expressions env :
  grows (do_define_form ev expressions env).
Proof. unfold do_define_form. repeat grows_step. Qed.

Lemma grows_do_begin_form expressions env :
  grows (do_begin_form ev expressions env).
Proof.
  unfold do_begin_form. apply grows_bind; [apply grows_check_form|].
  intros _. apply grows_eval_all.
Qed.

Lemma grows_do_if_form expressions env : grows (do_if_form ev expressions env).
Proof. unfold do_if_form. repeat grows_step. Qed.

Lemma grows_and_loop rest : forall first_ env,
  grows (and_loop ev first_ rest env).
Proof.
  induction rest; intros ? ?; cbn [and_loop]; repeat grows_step.
  apply IHrest2.
Qed.

Lemma grows_or_loop second_ : forall first_ env,
  grows (or_loop ev first_ second_ env).
Proof.
  induction second_; intros ? ?; cbn [or_loop]; repeat grows_step.
  apply IHsecond_2.
Qed.

Lemma grows_do_and_form expressions env : grows (do_and_form ev expressions env).
Proof. unfold do_and_form. repeat grows_step. apply grows_and_loop. Qed.

Lemma grows_do_or_form expressions env : grows (do_or_form ev expressions env).
Proof. unfold do_or_form. repeat grows_step. apply grows_or_loop. Qed.

Lemma grows_cond_loop expressions : forall i num_clauses env,
  grows (cond_loop ev expressions i num_clauses env).
Proof.
  induction expressions; intros ? ? ?; cbn [cond_loop]; repeat grows_step;
    first [apply grows_eval_all | apply grows_do_begin_form | apply IHexpressions2].
Qed.

Lemma grows_do_cond_form expressions env :
  grows (do_cond_form ev expressions env).
Proof. unfold do_cond_form. repeat grows_step. apply grows_cond_loop. Qed.

Lemma grows_let_loop bindings_ : forall formals values env,
  grows (let_loop ev bindings_ formals values env).
Proof.
  induction bindings_; intros ? ? ?; cbn [let_loop]; repeat grows_step.
  apply IHbindings_2.
Qed.

Lemma grows_do_let_form expressions env : grows (do_let_form ev expressions env).
Proof.
  unfold do_let_form, make_let_frame. repeat grows_step;
    first [apply grows_let_loop | apply grows_eval_all].
Qed.

Lemma grows_special_form x handler rest env :
  special_form ev x = Some handler -> grows (handler rest env).
Proof.
  destruct x; try discriminate. cbn [special_form]. unfold SPECIAL_FORMS.
  repeat (destruct (String.eqb name _); [intros ?; simplify_eq|]);
    [apply grows_do_and_form | apply grows_do_begin_form | apply grows_do_cond_form
    | unfold as_result; apply grows_bind;
        [apply grows_do_define_form|intros ?; apply grows_ret]
    | apply grows_do_if_form
    | unfold as_result; apply grows_bind;
        [apply grows_do_lambda_form|intros ?; apply grows_ret]
    | apply grows_do_let_form | apply grows_do_or_form
    | unfold as_result; apply grows_bind;
        [apply grows_do_quote_form|intros ?; apply grows_ret]
    | unfold as_result; apply grows_bind;
        [apply grows_do_mu_form|intros ?; apply grows_ret]
    | discriminate].
Qed.

Lemma grows_eval_combination expr env :
  grows (eval_combination fn ev expr env).
Proof.
  unfold eval_combination. destruct (negb (scheme_listp expr)); [apply grows_raise|].
  apply grows_bind; [apply grows_first|]. intros first_.
  apply grows_bind; [apply grows_second|]. intros rest.
  destruct (special_form ev first_) as [handler|] eqn:Hsf.
  - by eapply grows_special_form.
  - apply grows_bind; [apply grows_eval_value|]. intros procedure.
    destruct (negb (scheme_procedurep procedure)); [apply grows_raise|].
    apply grows_eval_call.
Qed.

End Growth.

Lemma grows_eval_atom e env : grows (eval_atom e env).
Proof.
  destruct e; try apply grows_ret. unfold eval_atom, as_result.
  apply grows_bind; [apply grows_frame_lookup|]. intros v. apply grows_ret.
Qed.

Lemma grows_trampoline step k :
  (forall e env, grows (step e env)) ->
  forall r, grows (trampoline step k r).
Proof.
  intros Hstep. induction k as [|k IH]; intros [v|e env]; cbn [trampoline];
    try apply grows_ret; [by intros st|].
  apply grows_bind; [apply Hstep|]. apply IH.
Qed.

Lemma demo_primitive_fn_grows name args env :
  grows (demo_primitive_fn name args env).
Proof.
  unfold demo_primitive_fn.
  repeat first [apply grows_ret | apply grows_raise
               | match goal with
                 | |- grows (if ?b then _ else _) => destruct b
                 | |- grows (match ?x with _ => _ end) => destruct x
                 end].
Qed.

(** As long as the host functions of the primitives lose no frame, change
    no parent and remove no binding, neither evaluator does: whether an
    evaluation returns or raises, every frame that existed is still there,
    with the same parent and with at least the names it bound. *)
Theorem evaluation_only_grows_the_store fn :
  (forall name args env, grows (fn name args env)) ->
  forall n expr env tail (st : store),
    outcome_grows st (scheme_optimized_eval fn n expr env tail st)
    /\ outcome_grows st (scheme_plain_eval fn n expr env tail st).
Proof.
  intros Hfn.
  assert (Hopt : forall n expr env tail,
             grows (scheme_optimized_eval fn n expr env tail)).
  { induction n as [|n IH]; intros expr env tail;
      (destruct (atomic expr) eqn:Ha;
       [rewrite scheme_optimized_eval_atomic by done; apply grows_eval_atom|]).
    - pose proof (atomic_false _ Ha) as [Hsym Hself].
      destruct tail; [rewrite scheme_optimized_eval_tail by done; apply grows_ret|].
      destruct expr; simpl in *; try discriminate; by intros st.
    - pose proof (atomic_false _ Ha) as [Hsym Hself].
      destruct tail; [rewrite scheme_optimized_eval_tail by done; apply grows_ret|].
      rewrite scheme_optimized_eval_combination by done.
      apply grows_trampoline. intros e env'. by apply grows_eval_combination. }
  assert (Hplain : forall n expr env tail,
             grows (scheme_plain_eval fn n expr env tail)).
  { induction n as [|n IH]; intros expr env tail;
      (destruct (atomic expr) eqn:Ha;
       [rewrite scheme_plain_eval_atomic by done; apply grows_eval_atom|]).
    - intros st. by rewrite scheme_plain_eval_0.
    - rewrite scheme_plain_eval_combination by done.
      by apply grows_eval_combination. }
  intros n expr env tail st. split; [apply Hopt|apply Hplain].
Qed.

Lemma evaluation_only_grows_the_store_witness :
  outcome_grows demo_store
    (scheme_optimized_eval demo_primitive_fn 12 sum_loop_program 0 false demo_store).
Proof.
  apply (proj1 (evaluation_only_grows_the_store demo_primitive_fn
                  demo_primitive_fn_grows 12 sum_loop_program 0 false demo_store)).
Defined.

(** ** begin and eval_all *)

Lemma eval_all_loop_raises ev env init : forall first_ e rest x st st1 st2,
  evaluated_in_order ev env (first_ :: init) st st1 ->
  ev e env false st1 = Raise x st2 ->
  eval_all_loop ev first_ (slist (init ++ e :: rest)) env st
  = match rest with [] => ev e env true st1 | _ => Raise x st2 end.
Proof.
  induction init as [|e' init IH]; intros first_ e rest x st st1 st2 Hrun Hraise;
    inversion Hrun as [|? ? r ? st' ? Hev Hrest]; subst.
  - inversion Hrest; subst. destruct rest as [|next post].
    + simpl. unfold bind. by rewrite Hev.
    + simpl. unfold bind. by rewrite Hev, Hraise.
  - cbn [app slist foldr eval_all_loop]. unfold bind at 1. rewrite Hev.
    by eapply IH.
Qed.

(** [(begin e1 ... en)] evaluates [e1] to [e(n-1)] in order, each for its
    effect, and is then [en] evaluated with the tail flag.  When one of the
    expressions before the last raises, the form raises the same error and
    the expressions after it are not evaluated.  [(begin)] is refused, and
    [eval_all] of no expression returns None. *)
Theorem begin_form_evaluates_in_order ev env init (st st1 : store) :
  evaluated_in_order ev env init st st1 ->
  (forall last,
      do_begin_form ev (slist (init ++ [last])) env st = ev last env true st1)
  /\ (forall e next post x st2,
        ev e env false st1 = Raise x st2 ->
        do_begin_form ev (slist (init ++ e :: next :: post)) env st = Raise x st2)
  /\ do_begin_form ev Nil env st = Raise (SchemeError TooFewOperands) st
  /\ eval_all ev Nil env st = Ok (Val NoneV) st.
Proof.
  intros Hrun. split; [|split; [|split]]; [| |reflexivity|reflexivity].
  - intros last. by apply do_begin_form_last.
  - intros e next post x st2 Hraise.
    rewrite do_begin_form_slist by (by destruct init).
    destruct init as [|first_ init].
    + inversion Hrun; subst. cbn [app slist foldr eval_all first second].
      unfold bind, ret. cbn [eval_all_loop]. unfold bind. by rewrite Hraise.
    + cbn [app slist foldr eval_all first second]. unfold bind, ret.
      by rewrite (eval_all_loop_raises ev env init first_ e (next :: post)
                    x st st1 st2 Hrun Hraise).
Qed.

Lemma begin_form_evaluates_in_order_witness :
  do_begin_form (scheme_optimized_eval demo_primitive_fn 2)
    (slist [Num 1; Sym "unbound"%string; Num 3]) 0 demo_store
  = Raise (SchemeError (UnknownIdentifier "unbound"%string)) demo_store.
Proof.
  assert (Hrun : evaluated_in_order (scheme_optimized_eval demo_primitive_fn 2) 0
                   [Num 1] demo_store demo_store).
  { apply (evaluated_cons _ _ (Num 1) [] (Val (Num 1)) demo_store demo_store);
      [reflexivity|constructor]. }
  apply (proj1 (proj2 (begin_form_evaluates_in_order _ _ _ _ _ Hrun))
           (Sym "unbound"%string) (Num 3) []
           (SchemeError (UnknownIdentifier "unbound"%string)) demo_store).
  reflexivity.
Defined.

(** * Properties of the Game of Hog *)

(** ** is_prime and next_prime *)

Section HogPrimes.
Local Open Scope Z_scope.

Lemma is_prime_loop_spec count : forall k n,
  0 < k ->
  is_prime_loop count k n = true <->
  forall j, k <= j < k + Z.of_nat count -> ~ (j | n).
Proof.
  induction count as [|count IH]; intros k n Hk.
  - simpl. split; [intros _ j Hj; lia|done].
  - cbn [is_prime_loop]. destruct (n mod k =? 0) eqn:Hmod.
    + apply Z.eqb_eq in Hmod. apply Z.mod_divide in Hmod; [|lia].
      split; [done|]. intros H. exfalso. apply (H k); [lia|done].
    + apply Z.eqb_neq in Hmod. rewrite IH by lia. split.
      * intros H j Hj. destruct (decide (j = k)) as [->|Hne].
        -- intros Hdiv. apply Hmod. apply Z.mod_divide; [lia|done].
        -- apply H. lia.
      * intros H j Hj. apply H. lia.
Qed.

Lemma is_prime_spec n : is_prime n = true <-> Z.prime n.
Proof.
  unfold is_prime, Z.prime.
  destruct (n <=? 1) eqn:Hn.
  - apply Z.leb_le in Hn. split; [done|]. intros [? _]. lia.
  - apply Z.leb_gt in Hn. rewrite is_prime_loop_spec by lia. split.
    + intros H. split; [done|]. intros j Hj. apply H. lia.
    + intros [_ H] j Hj. apply H. lia.
Qed.

Lemma is_prime_false n : is_prime n = false <-> ~ Z.prime n.
Proof.
  rewrite <- is_prime_spec. by destruct (is_prime n).
Qed.

(** [is_prime] decides primality: it returns True exactly on the prime
    numbers. *)
Theorem is_prime_decides_primality n : is_prime n = true <-> Z.prime n.
Proof. exact (is_prime_spec n). Qed.

Lemma is_prime_loop_false count : forall k n,
  0 < k -> is_prime_loop count k n = false ->
  exists j, k <= j < k + Z.of_nat count /\ (j | n).
Proof.
  induction count as [|count IH]; intros k n Hk; cbn [is_prime_loop]; [done|].
  destruct (n mod k =? 0) eqn:Hmod.
  - intros _. apply Z.eqb_eq in Hmod. apply Z.mod_divide in Hmod; [|lia].
    exists k. split; [lia|done].
  - intros Hloop. destruct (IH (k + 1) n ltac:(lia) Hloop) as (j & Hj & Hdiv).
    exists j. split; [lia|done].
Qed.

Lemma not_prime_divisor m :
  1 < m -> is_prime m = false -> exists d, 1 < d < m /\ (d | m).
Proof.
  intros Hm. unfold is_prime. destruct (m <=? 1) eqn:H1; [lia|].
  intros Hloop. apply is_prime_loop_false in Hloop; [|lia].
  destruct Hloop as (j & Hj & Hdiv). exists j. split; [lia|done].
Qed.

(** Every number above 1 has a prime divisor. *)
Lemma prime_divisor m : 1 < m -> exists p, Z.prime p /\ (p | m).
Proof.
  intros Hm. assert (H : 0 <= m) by lia. revert Hm.
  pattern m. apply Z_lt_induction; [|exact H].
  clear m H. intros m IH Hm.
  destruct (is_prime m) eqn:Hprime.
  - exists m. split; [by apply is_prime_spec|]. apply Z.divide_refl.
  - destruct (not_prime_divisor m Hm Hprime) as (d & Hd & Hdiv).
    destruct (IH d ltac:(lia) ltac:(lia)) as (p & Hp & Hpd).
    exists p. split; [done|]. by eapply Z.divide_trans.
Qed.

Lemma divide_fact k : forall j, 1 <= j <= Z.of_nat k -> (j | Z.of_nat (fact k)).
Proof.
  induction k as [|k IH]; intros j Hj; [lia|].
  change (fact (S k)) with (S k * fact k)%nat. rewrite Nat2Z.inj_mul.
  destruct (decide (j = Z.of_nat (S k))) as [->|Hne].
  - apply Z.divide_factor_l.
  - apply Z.divide_mul_r. apply IH. lia.
Qed.

(** There is a prime above every number. *)
Lemma prime_above n : exists p, Z.prime p /\ n < p.
Proof.
  destruct (decide (n < 2)) as [Hn|Hn].
  - exists 2. split; [apply Z.prime_2|lia].
  - pose (m := Z.of_nat (fact (Z.to_nat n)) + 1).
    assert (Hpos : 0 < Z.of_nat (fact (Z.to_nat n))).
    { pose proof (lt_O_fact (Z.to_nat n)). lia. }
    destruct (prime_divisor m ltac:(unfold m; lia)) as (p & Hp & Hdiv).
    exists p. split; [done|].
    destruct (decide (n < p)) as [|Hle]; [done|]. exfalso.
    pose proof (Z.prime_ge_2 p Hp) as Hp2.
    assert (Hpf : (p | Z.of_nat (fact (Z.to_nat n)))).
    { apply divide_fact. lia. }
    assert (Hp1 : (p | 1)).
    { apply (Z.divide_add_cancel_r p (Z.of_nat (fact (Z.to_nat n))) 1); done. }
    apply Z.divide_1_r_nonneg in Hp1; lia.
Qed.

(** The least prime from [k] on, when there is one within [d]. *)
Lemma least_prime_from d : forall k,
  (exists p, Z.prime p /\ k <= p <= k + Z.of_nat d) ->
  exists p, Z.prime p /\ k <= p /\ forall q, k <= q < p -> ~ Z.prime q.
Proof.
  induction d as [|d IH]; intros k (p & Hp & Hkp).
  - exists p. split; [done|]. split; [lia|]. intros q Hq. lia.
  - destruct (is_prime k) eqn:Hk;
      [apply is_prime_spec in Hk|apply is_prime_false in Hk].
    + exists k. split; [done|]. split; [lia|]. intros q Hq. lia.
    + destruct (IH (k + 1)) as (p' & Hp' & Hkp' & Hleast).
      { exists p. split; [done|]. destruct (decide (p = k)) as [->|]; [done|lia]. }
      exists p'. split; [done|]. split; [lia|]. intros q Hq.
      destruct (decide (q = k)) as [->|]; [done|]. apply Hleast. lia.
Qed.

Lemma next_prime_loop_finds d : forall k p (fuel : nat),
  Z.prime p -> k <= p -> Z.to_nat (p - k) = d ->
  (forall q, k <= q < p -> ~ Z.prime q) ->
  (d < fuel)%nat ->
  next_prime_loop fuel k = Returns p.
Proof.
  induction d as [|d IH]; intros k p fuel Hp Hkp Hd Hleast Hfuel;
    (destruct fuel as [|fuel]; [lia|]); cbn [next_prime_loop].
  - assert (k = p) as -> by lia.
    by rewrite (proj2 (is_prime_spec p) Hp).
  - rewrite (proj2 (is_prime_false k)) by (apply Hleast; lia).
    apply IH; [done|lia|lia| |lia]. intros q Hq. apply Hleast. lia.
Qed.

Lemma next_prime_loop_sound fuel : forall k r,
  next_prime_loop fuel k = Returns r ->
  Z.prime r /\ k <= r /\ forall q, k <= q < r -> ~ Z.prime q.
Proof.
  induction fuel as [|fuel IH]; intros k r; cbn [next_prime_loop]; [done|].
  destruct (is_prime k) eqn:Hk.
  - intros [= <-]. split; [by apply is_prime_spec|]. split; [lia|].
    intros q Hq. lia.
  - intros Hr. destruct (IH _ _ Hr) as (Hp & Hkr & Hleast).
    split; [done|]. split; [lia|]. intros q Hq.
    destruct (decide (q = k)) as [->|]; [by apply is_prime_false|].
    apply Hleast. lia.
Qed.

Lemma next_prime_no_assertion fuel n : next_prime fuel n <> AssertionError.
Proof.
  unfold next_prime. generalize (n + 1). induction fuel as [|fuel IH];
    intros k; cbn [next_prime_loop]; [done|].
  destruct (is_prime k); [done|apply IH].
Qed.

Lemma next_prime_spec n :
  exists p,
    Z.prime p /\ n < p /\ (forall q, n < q < p -> ~ Z.prime q)
    /\ (forall fuel : nat,
          (Z.to_nat (p - n) <= fuel)%nat -> next_prime fuel n = Returns p)
    /\ (forall (fuel : nat) r, next_prime fuel n = Returns r -> r = p).
Proof.
  destruct (prime_above n) as (p0 & Hp0 & Hnp0).
  destruct (least_prime_from (Z.to_nat (p0 - (n + 1))) (n + 1))
    as (p & Hp & Hnp & Hleast).
  { exists p0. split; [done|lia]. }
  exists p. split; [done|]. split; [lia|]. split.
  { intros q Hq. apply Hleast. lia. }
  split.
  - intros fuel Hfuel. unfold next_prime.
    eapply next_prime_loop_finds; [done|done|reflexivity|done|lia].
  - intros fuel r Hr. apply next_prime_loop_sound in Hr.
    destruct Hr as (Hr & Hnr & Hrleast).
    destruct (Z.lt_trichotomy r p) as [Hlt|[->|Hgt]]; [|done|].
    + exfalso. by apply (Hleast r); [lia|].
    + exfalso. by apply (Hrleast p); [lia|].
Qed.

(** [next_prime(n)] returns the least prime above [n]: the search stops after
    [p - n] tests, and no amount of fuel makes it return anything else. *)
Theorem next_prime_returns_least_prime_above n :
  exists p,
    Z.prime p /\ n < p /\ (forall q, n < q < p -> ~ Z.prime q)
    /\ (forall fuel : nat,
          (Z.to_nat (p - n) <= fuel)%nat -> next_prime fuel n = Returns p)
    /\ (forall (fuel : nat) r, next_prime fuel n = Returns r -> r = p).
Proof. exact (next_prime_spec n). Qed.

End HogPrimes.

(** ** roll_dice and take_turn *)

Section HogTurn.
Local Open Scope Z_scope.

Variable dice_state : Type.

Lemma outcomes_length count (dice : die dice_state) : forall s,
  List.length (outcomes count dice s).1 = count.
Proof.
  induction count as [|count IH]; intros s; cbn [outcomes]; [done|].
  destruct (dice s) as [value s']. specialize (IH s').
  destruct (outcomes count dice s') as [values s'']. simpl in *. by rewrite IH.
Qed.

Lemma roll_dice_loop_spec count (dice : die dice_state) : forall total outcome_one s,
  0 <= outcome_one ->
  exists outcome_one',
    roll_dice_loop count dice total outcome_one s
    = (total + foldr Z.add 0 (outcomes count dice s).1, outcome_one',
       (outcomes count dice s).2)
    /\ 0 <= outcome_one'
    /\ (0 < outcome_one' <-> 0 < outcome_one \/ 1 ∈ (outcomes count dice s).1).
Proof.
  induction count as [|count IH]; intros total outcome_one s Hone;
    cbn [roll_dice_loop outcomes].
  - exists outcome_one. simpl. rewrite Z.add_0_r. split; [done|].
    split; [done|]. rewrite elem_of_nil. tauto.
  - destruct (dice s) as [value s'].
    destruct (IH (total + value)
                (if value =? 1 then outcome_one + 1 else outcome_one) s')
      as (one' & Hloop & Hpos & Hiff).
    { destruct (value =? 1); lia. }
    exists one'. rewrite Hloop.
    destruct (outcomes count dice s') as [values s'']. cbn [fst snd foldr] in *.
    split; [f_equal; f_equal; lia|]. split; [done|].
    rewrite Hiff, elem_of_cons. destruct (value =? 1) eqn:Hv.
    + apply Z.eqb_eq in Hv. split; [intros _; right; left; done|lia].
    + apply Z.eqb_neq in Hv. split; [tauto|]. intros [?|[?|?]]; [tauto|lia|tauto].
Qed.

Lemma roll_dice_spec num_rolls (dice : die dice_state) s :
  roll_dice num_rolls dice s =
  if 0 <? num_rolls then
    let (values, s') := outcomes (Z.to_nat num_rolls) dice s in
    Returns (if bool_decide (1 ∈ values) then 0 else foldr Z.add 0 values, s')
  else AssertionError.
Proof.
  unfold roll_dice. destruct (0 <? num_rolls); [|done]. cbn [negb].
  destruct (roll_dice_loop_spec (Z.to_nat num_rolls) dice 0 0 s ltac:(lia))
    as (one' & -> & Hpos & Hiff).
  destruct (outcomes (Z.to_nat num_rolls) dice s) as [values s'].
  cbn [fst snd] in *. destruct (0 <? one') eqn:Hone.
  - apply Z.ltb_lt in Hone. rewrite bool_decide_eq_true_2; [done|].
    apply Hiff in Hone. destruct Hone; [lia|done].
  - apply Z.ltb_ge in Hone. rewrite bool_decide_eq_false_2; [done|].
    intros Hin. assert (0 < one') by (apply Hiff; by right). lia.
Qed.

(** [roll_dice] calls the die exactly [num_rolls] times, also after a 1 has
    come up; it returns 0 if one of the outcomes is 1 and their sum otherwise.
    With [num_rolls <= 0] its assert fails. *)
Theorem roll_dice_sums_unless_one num_rolls (dice : die dice_state) s :
  roll_dice num_rolls dice s =
  if 0 <? num_rolls then
    let (values, s') := outcomes (Z.to_nat num_rolls) dice s in
    Returns (if bool_decide (1 ∈ values) then 0 else foldr Z.add 0 values, s')
  else AssertionError.
Proof. exact (roll_dice_spec num_rolls dice s). Qed.

(** The Hogtimus Prime step on the scores that Free Bacon can give. *)
Lemma hogtimus_small m :
  1 <= m <= 10 ->
  exists r,
    m <= r <= 11
    /\ forall fuel : nat, (4 <= fuel)%nat ->
         (if is_prime m then next_prime fuel m else Returns m) = Returns r.
Proof.
  intros Hm.
  assert (m = 1 \/ m = 2 \/ m = 3 \/ m = 4 \/ m = 5 \/ m = 6 \/ m = 7
          \/ m = 8 \/ m = 9 \/ m = 10) as Hcases by lia.
  repeat (destruct Hcases as [->|Hcases]); try subst m;
    (eexists; split; cycle 1;
     [intros fuel Hfuel; do 4 (destruct fuel as [|fuel]; [lia|]);
      vm_compute; reflexivity
     |lia]).
Qed.

Lemma free_bacon_range opponent_score :
  opponent_score < 100 ->
  1 <= Z.max (opponent_score / 10) (opponent_score mod 10) + 1 <= 10.
Proof. intros H. Z.div_mod_to_equations. lia. Qed.

Lemma take_turn_free_bacon opponent_score (dice : die dice_state) s :
  opponent_score < 100 ->
  exists r,
    1 <= r <= 11
    /\ forall fuel : nat, (4 <= fuel)%nat ->
         take_turn fuel 0 opponent_score dice s = Returns (r, s)
         /\ (if is_prime (Z.max (opponent_score / 10) (opponent_score mod 10) + 1)
             then next_prime fuel
                    (Z.max (opponent_score / 10) (opponent_score mod 10) + 1)
             else Returns (Z.max (opponent_score / 10) (opponent_score mod 10) + 1))
            = Returns r.
Proof.
  intros Hopp. pose proof (free_bacon_range _ Hopp) as Hrange.
  destruct (hogtimus_small _ Hrange) as (r & Hmr & Hr).
  exists r. split; [lia|]. intros fuel Hfuel. specialize (Hr fuel Hfuel).
  split; [|done].
  unfold take_turn. cbn [Z.leb Z.compare negb Z.eqb].
  destruct (opponent_score <? 100) eqn:H100; [|lia].
  cbn [negb]; unfold mbind, run_bind.
  destruct (is_prime _); [|by inversion Hr]. by rewrite Hr.
Qed.

(** Rolling no dice (Free Bacon) never touches the dice and scores between
    1 and 11 points, whatever the opponent's score below 100 is; four steps
    of the prime search are enough. *)
Theorem take_turn_free_bacon_scores opponent_score (dice : die dice_state) s :
  opponent_score < 100 ->
  exists r,
    1 <= r <= 11
    /\ forall fuel : nat, (4 <= fuel)%nat ->
         take_turn fuel 0 opponent_score dice s = Returns (r, s).
Proof.
  intros Hopp.
  destruct (take_turn_free_bacon opponent_score dice s Hopp) as (r & Hrange & Hr).
  exists r. split; [done|]. intros fuel Hfuel. by destruct (Hr fuel Hfuel).
Qed.

(** The asserts of [take_turn] fail exactly when the number of rolls is not
    between 0 and 10 or the opponent has 100 points or more; past them, the
    assert of [roll_dice] never fails. *)
Theorem take_turn_assertion_fails_iff (fuel : nat) num_rolls opponent_score
    (dice : die dice_state) s :
  take_turn fuel num_rolls opponent_score dice s = AssertionError
  <-> ~ (0 <= num_rolls <= 10 /\ opponent_score < 100).
Proof.
  unfold take_turn.
  destruct (0 <=? num_rolls) eqn:H0; cbn [negb];
    [apply Z.leb_le in H0|apply Z.leb_gt in H0; split; [lia|done]].
  destruct (num_rolls <=? 10) eqn:H10; cbn [negb];
    [apply Z.leb_le in H10|apply Z.leb_gt in H10; split; [lia|done]].
  destruct (opponent_score <? 100) eqn:H100; cbn [negb];
    [apply Z.ltb_lt in H100|apply Z.ltb_ge in H100; split; [lia|done]].
  split; [|lia]. intros Hassert. exfalso. revert Hassert.
  destruct (num_rolls =? 0) eqn:Hz.
  - unfold mbind, run_bind. destruct (is_prime _); [|done].
    pose proof (next_prime_no_assertion fuel) as Hnp.
    by destruct (next_prime _ _) eqn:Hnext; [| destruct (Hnp _ Hnext) |].

  - apply Z.eqb_neq in Hz. rewrite roll_dice_spec.
    destruct (0 <? num_rolls) eqn:Hpos; [|apply Z.ltb_ge in Hpos; lia].
    destruct (outcomes _ _ _) as [values s']. unfold mbind, run_bind.
    destruct (is_prime _); [|done]. pose proof (next_prime_no_assertion fuel) as Hnp.
    by destruct (next_prime _ _) eqn:Hnext; [| destruct (Hnp _ Hnext) |].
Qed.

Lemma take_turn_rolls num_rolls opponent_score (dice : die dice_state) s :
  1 <= num_rolls <= 10 -> opponent_score < 100 ->
  exists r,
    (exists fuel0 : nat, forall fuel : nat, (fuel0 <= fuel)%nat ->
       take_turn fuel num_rolls opponent_score dice s
       = Returns (r, (outcomes (Z.to_nat num_rolls) dice s).2))
    /\ (1 ∈ (outcomes (Z.to_nat num_rolls) dice s).1 -> r = 0)
    /\ (1 ∉ (outcomes (Z.to_nat num_rolls) dice s).1 ->
        let total := foldr Z.add 0 (outcomes (Z.to_nat num_rolls) dice s).1 in
        if is_prime total
        then Z.prime r /\ total < r /\ forall q, total < q < r -> ~ Z.prime q
        else r = total).
Proof.
  intros Hrolls Hopp.
  assert (Hturn : forall fuel : nat,
     take_turn fuel num_rolls opponent_score dice s =
     '(score, s') ← roll_dice num_rolls dice s;
     if is_prime score then k ← next_prime fuel score; Returns (k, s')
     else Returns (score, s')).
  { intros fuel. unfold take_turn.
    destruct (0 <=? num_rolls) eqn:H0; [|lia].
    destruct (num_rolls <=? 10) eqn:H10; [|lia].
    destruct (opponent_score <? 100) eqn:H100; [|lia].
    destruct (num_rolls =? 0) eqn:Hz; [lia|done]. }
  rewrite roll_dice_spec in Hturn.
  destruct (0 <? num_rolls) eqn:Hpos; [|lia].
  destruct (outcomes (Z.to_nat num_rolls) dice s) as [values s'].
  cbn [fst snd] in *; unfold mbind, run_bind in *.
  destruct (decide (1 ∈ values)) as [Hin|Hnin].
  - rewrite bool_decide_eq_true_2 in Hturn by done.
    exists 0. split; [exists 0%nat; intros fuel _; by rewrite Hturn|].
    split; [done|]. intros H. done.
  - rewrite bool_decide_eq_false_2 in Hturn by done.
    set (total := foldr Z.add 0 values) in *.
    destruct (is_prime total) eqn:Hprime.
    + destruct (next_prime_spec total) as (p & Hp & Hlt & Hleast & Hfuel & _).
      exists p. split.
      * exists (Z.to_nat (p - total)). intros fuel Hge.
        by rewrite Hturn, Hfuel.
      * split; [done|]. intros _. done.
    + exists total. split; [exists 0%nat; intros fuel _; by rewrite Hturn|].
      split; [done|]. intros _. done.
Qed.

(** A turn with 1 to 10 rolls calls the die that many times and scores 0
    when a 1 came up; otherwise it scores the sum of the outcomes, or the
    next prime above it when the sum is prime (Hogtimus Prime). *)
Theorem take_turn_rolls_and_scores num_rolls opponent_score (dice : die dice_state) s :
  1 <= num_rolls <= 10 -> opponent_score < 100 ->
  exists r,
    (exists fuel0 : nat, forall fuel : nat, (fuel0 <= fuel)%nat ->
       take_turn fuel num_rolls opponent_score dice s
       = Returns (r, (outcomes (Z.to_nat num_rolls) dice s).2))
    /\ (1 ∈ (outcomes (Z.to_nat num_rolls) dice s).1 -> r = 0)
    /\ (1 ∉ (outcomes (Z.to_nat num_rolls) dice s).1 ->
        let total := foldr Z.add 0 (outcomes (Z.to_nat num_rolls) dice s).1 in
        if is_prime total
        then Z.prime r /\ total < r /\ forall q, total < q < r -> ~ Z.prime q
        else r = total).
Proof. exact (take_turn_rolls num_rolls opponent_score dice s). Qed.

End HogTurn.

Lemma take_turn_free_bacon_scores_witness :
  exists r,
    (1 <= r <= 11)%Z
    /\ forall fuel : nat, (4 <= fuel)%nat ->
         take_turn fuel 0 37 threes 0%nat = Returns (r, 0%nat).
Proof. apply (take_turn_free_bacon_scores nat 37 threes 0%nat). lia. Defined.

Lemma take_turn_rolls_and_scores_witness :
  exists r,
    (exists fuel0 : nat, forall fuel : nat, (fuel0 <= fuel)%nat ->
       take_turn fuel 2 0 demo_die 2%nat = Returns (r, 4%nat))
    /\ Z.prime r /\ (11 < r)%Z.
Proof.
  destruct (take_turn_rolls_and_scores nat 2 0 demo_die 2%nat
              ltac:(lia) ltac:(lia)) as (r & Hrun & _ & Hsum).
  exists r. split; [exact Hrun|].
  destruct (Hsum ltac:(apply (bool_decide_unpack _); vm_compute; exact I))
    as (Hp & Hlt & _).
  split; [exact Hp|exact Hlt].
Defined.

(** ** is_swap *)

Section HogSwap.
Local Open Scope Z_scope.

Lemma is_swap_symmetric a b : a <> 100 -> b <> 100 -> is_swap a b = is_swap b a.
Proof.
  intros Ha Hb. unfold is_swap, split_integer.
  destruct (a <? 100) eqn:Ha100; destruct (b <? 100) eqn:Hb100; cbn [andb];
    destruct (100 <? a) eqn:Ha'; destruct (100 <? b) eqn:Hb'; try lia;
    apply eq_true_iff_eq; rewrite !andb_true_iff, !Z.eqb_eq;
    Z.div_mod_to_equations; lia.
Qed.

(** Swapping is symmetric in the two scores as long as neither is exactly
    100. *)
Theorem is_swap_symmetric_unless_100 a b :
  a <> 100 -> b <> 100 -> is_swap a b = is_swap b a.
Proof. exact (is_swap_symmetric a b). Qed.

(** At exactly 100 the two orders differ: the first branch tests
    [score0 > 100]. *)
Remark is_swap_at_100 : is_swap 0 100 = true /\ is_swap 100 0 = false.
Proof. split; reflexivity. Qed.

(** For a first score below 200 and other than 100, and a second score below
    100, [is_swap] holds exactly when the last two digits of the first score
    are the digits of the second in reverse order. *)
Theorem is_swap_reverses_last_two_digits a b :
  0 <= a < 200 -> a <> 100 -> 0 <= b < 100 ->
  is_swap a b = true <-> a mod 100 = 10 * (b mod 10) + b / 10.
Proof.
  intros Ha Ha' Hb. unfold is_swap, split_integer.
  destruct (a <? 100) eqn:Ha100; destruct (b <? 100) eqn:Hb100; cbn [andb];
    destruct (100 <? a) eqn:Ha''; try lia;
    rewrite !andb_true_iff, !Z.eqb_eq; Z.div_mod_to_equations; lia.
Qed.

End HogSwap.

Lemma is_swap_symmetric_unless_100_witness : is_swap 19 91 = is_swap 91 19.
Proof. apply (is_swap_symmetric_unless_100 19 91); lia. Defined.

Lemma is_swap_reverses_last_two_digits_witness :
  is_swap 119 91 = true <-> (119 mod 100 = 10 * (91 mod 10) + 91 / 10)%Z.
Proof. apply (is_swap_reverses_last_two_digits 119 91); lia. Defined.

(** ** The strategies *)

Section HogStrategies.
Local Open Scope Z_scope.

Variable dice_state : Type.

Lemma bacon_strategy_returns (fuel : nat) score opponent_score margin num_rolls r :
  (if is_prime (Z.max (opponent_score / 10) (opponent_score mod 10) + 1)
   then next_prime fuel (Z.max (opponent_score / 10) (opponent_score mod 10) + 1)
   else Returns (Z.max (opponent_score / 10) (opponent_score mod 10) + 1))
  = Returns r ->
  bacon_strategy fuel score opponent_score margin num_rolls
  = Returns (if margin <=? r then 0 else num_rolls).
Proof.
  intros Hr. unfold bacon_strategy. rewrite Z.add_max_distr_r, Hr. done.
Qed.

Lemma swap_strategy_returns (fuel : nat) score opponent_score num_rolls r :
  (if is_prime (Z.max (opponent_score / 10) (opponent_score mod 10) + 1)
   then next_prime fuel (Z.max (opponent_score / 10) (opponent_score mod 10) + 1)
   else Returns (Z.max (opponent_score / 10) (opponent_score mod 10) + 1))
  = Returns r ->
  swap_strategy fuel score opponent_score num_rolls
  = Returns (if opponent_score / 10 =? opponent_score mod 10 then num_rolls
             else if is_swap (score + r) opponent_score
                     && (score + r <=? opponent_score)
                  then 0 else num_rolls).
Proof.
  intros Hr. unfold swap_strategy. rewrite Z.add_max_distr_r.
  replace (opponent_score / 10 + 1 =? opponent_score mod 10 + 1)
    with (opponent_score / 10 =? opponent_score mod 10)
    by (apply eq_true_iff_eq; rewrite !Z.eqb_eq; lia).
  destruct (opponent_score / 10 =? opponent_score mod 10); [done|].
  destruct (is_prime _).
  - rewrite Hr. unfold mbind, run_bind.
    destruct (is_swap _ _); [|done]. by destruct (_ <=? _).
  - injection Hr as <-. unfold mbind, run_bind.
    destruct (is_swap _ _); [|done]. by destruct (_ <=? _).
Qed.

(** [bacon_strategy] decides on the very points that a turn with no rolls
    scores: it answers 0 exactly when [take_turn(0, opponent_score)] gives at
    least [margin] points, and [num_rolls] otherwise. *)
Theorem bacon_strategy_agrees_with_take_turn
    score opponent_score margin num_rolls (dice : die dice_state) s :
  opponent_score < 100 ->
  exists points,
    forall fuel : nat, (4 <= fuel)%nat ->
      take_turn fuel 0 opponent_score dice s = Returns (points, s)
      /\ bacon_strategy fuel score opponent_score margin num_rolls
         = Returns (if margin <=? points then 0 else num_rolls).
Proof.
  intros Hopp.
  destruct (take_turn_free_bacon dice_state opponent_score dice s Hopp)
    as (r & _ & Hr).
  exists r. intros fuel Hfuel. destruct (Hr fuel Hfuel) as [Hturn Hhog].
  split; [done|]. by apply bacon_strategy_returns.
Qed.

(** [swap_strategy] answers 0 exactly when the two digits of the opponent's
    score differ and the points of a turn with no rolls, added to the
    player's score, give a score that swaps with the opponent's and is not
    above it; otherwise it answers [num_rolls]. *)
Theorem swap_strategy_agrees_with_take_turn
    score opponent_score num_rolls (dice : die dice_state) s :
  opponent_score < 100 ->
  exists points,
    forall fuel : nat, (4 <= fuel)%nat ->
      take_turn fuel 0 opponent_score dice s = Returns (points, s)
      /\ swap_strategy fuel score opponent_score num_rolls
         = Returns (if opponent_score / 10 =? opponent_score mod 10 then num_rolls
                    else if is_swap (score + points) opponent_score
                            && (score + points <=? opponent_score)
                         then 0 else num_rolls).
Proof.
  intros Hopp.
  destruct (take_turn_free_bacon dice_state opponent_score dice s Hopp)
    as (r & _ & Hr).
  exists r. intros fuel Hfuel. destruct (Hr fuel Hfuel) as [Hturn Hhog].
  split; [done|]. by apply swap_strategy_returns.
Qed.

Lemma hogtimus_tiny m :
  1 <= m <= 4 ->
  exists r, forall fuel : nat, (2 <= fuel)%nat ->
    (if is_prime m then next_prime fuel m else Returns m) = Returns r.
Proof.
  intros Hm.
  assert (m = 1 \/ m = 2 \/ m = 3 \/ m = 4) as Hcases by lia.
  repeat (destruct Hcases as [->|Hcases]); try subst m;
    (eexists; intros fuel Hfuel; do 2 (destruct fuel as [|fuel]; [lia|]);
     vm_compute; reflexivity).
Qed.

Lemma final_strategy_spec score opponent_score :
  exists r,
    (r = 0 \/ r = 2 \/ r = 4 \/ r = 5 \/ r = 6)
    /\ forall fuel : nat, (2 <= fuel)%nat ->
         final_strategy fuel score opponent_score = Returns r.
Proof.
  unfold final_strategy.
  destruct (_ =? 0); [exists 0; split; [lia|done]|].
  destruct (4 <? _) eqn:Hbacon; [exists 0; split; [lia|done]|].
  apply Z.ltb_ge in Hbacon.
  assert (Hrange : 1 <= Z.max (opponent_score / 10) (opponent_score mod 10) + 1 <= 4).
  { split; [|done]. Z.div_mod_to_equations. lia. }
  destruct (hogtimus_tiny _ Hrange) as (p & Hp).
  pose proof (fun fuel Hfuel margin num_rolls =>
    bacon_strategy_returns fuel score opponent_score margin num_rolls p
      (Hp fuel Hfuel)) as Hb.
  pose proof (fun fuel Hfuel =>
    swap_strategy_returns fuel score opponent_score 6 p (Hp fuel Hfuel)) as Hs.
  repeat match goal with
  | |- exists r, _ /\ forall fuel, _ -> (if ?c then _ else _) = _ => destruct c
  end;
  (eexists; split; cycle 1;
   [intros fuel Hfuel; first [apply (Hb fuel Hfuel)|apply (Hs fuel Hfuel)|reflexivity]
   |repeat match goal with
     | |- context [if ?c then _ else _] => destruct c
     end; lia]).
Qed.

(** [final_strategy] always answers, needs no more than two steps of the
    prime search, and answers 0, 2, 4, 5 or 6: a number of rolls that
    [take_turn] accepts. *)
Theorem final_strategy_returns_valid_rolls score opponent_score :
  exists r,
    (r = 0 \/ r = 2 \/ r = 4 \/ r = 5 \/ r = 6)
    /\ forall fuel : nat, (2 <= fuel)%nat ->
         final_strategy fuel score opponent_score = Returns r.
Proof. exact (final_strategy_spec score opponent_score). Qed.

End HogStrategies.

Lemma bacon_strategy_agrees_with_take_turn_witness :
  exists points,
    forall fuel : nat, (4 <= fuel)%nat ->
      take_turn fuel 0 56 threes 0%nat = Returns (points, 0%nat)
      /\ bacon_strategy fuel 10 56 8 5
         = Returns (if (8 <=? points)%Z then 0%Z else 5%Z).
Proof.
  apply (bacon_strategy_agrees_with_take_turn nat 10 56 8 5 threes 0%nat). lia.
Defined.

Lemma swap_strategy_agrees_with_take_turn_witness :
  exists points,
    forall fuel : nat, (4 <= fuel)%nat ->
      take_turn fuel 0 31 threes 0%nat = Returns (points, 0%nat)
      /\ swap_strategy fuel 8 31 5
         = Returns (if (31 / 10 =? 31 mod 10)%Z then 5%Z
                    else if is_swap (8 + points) 31 && (8 + points <=? 31)%Z
                         then 0%Z else 5%Z).
Proof.
  apply (swap_strategy_agrees_with_take_turn nat 8 31 5 threes 0%nat). lia.
Defined.

(** ** play *)

Section HogPlay.
Local Open Scope Z_scope.

Variable dice_state : Type.
Variables four_sided six_sided : die dice_state.

Hypothesis four_sided_positive : positive_die four_sided.
Hypothesis six_sided_positive : positive_die six_sided.

Lemma outcomes_positive count (dice : die dice_state) :
  positive_die dice ->
  forall s, Z.of_nat count <= foldr Z.add 0 (outcomes count dice s).1.
Proof.
  intros Hdice. induction count as [|count IH]; intros s; cbn [outcomes];
    [simpl; lia|].
  pose proof (Hdice s) as Hv. destruct (dice s) as [value s'].
  specialize (IH s'). destruct (outcomes count dice s') as [values s''].
  cbn [fst snd foldr] in *. lia.
Qed.

Lemma select_dice_positive score opponent_score :
  positive_die (select_dice four_sided six_sided score opponent_score).
Proof. unfold select_dice. by destruct (_ =? 0). Qed.

(** With a die that never shows less than 1, a turn returns, given enough
    fuel; it scores 0 only when dice were rolled. *)
Lemma take_turn_returns num_rolls opponent_score (dice : die dice_state) s :
  positive_die dice -> 0 <= num_rolls <= 10 -> opponent_score < 100 ->
  exists (fuel0 : nat) r s',
    (forall fuel : nat, (fuel0 <= fuel)%nat ->
       take_turn fuel num_rolls opponent_score dice s = Returns (r, s'))
    /\ 0 <= r /\ (r = 0 -> 1 <= num_rolls).
Proof.
  intros Hdice Hrolls Hopp. destruct (decide (num_rolls = 0)) as [->|Hne].
  - destruct (take_turn_free_bacon dice_state opponent_score dice s Hopp)
      as (r & Hr & Hturn).
    exists 4%nat, r, s. split; [|lia]. intros fuel Hfuel.
    by destruct (Hturn fuel Hfuel).
  - destruct (take_turn_rolls dice_state num_rolls opponent_score dice s
                ltac:(lia) Hopp) as (r & (fuel0 & Hturn) & Hone & Hsum).
    exists fuel0, r, (outcomes (Z.to_nat num_rolls) dice s).2.
    split; [done|]. split; [|lia].
    destruct (decide (1 ∈ (outcomes (Z.to_nat num_rolls) dice s).1)) as [Hin|Hnin].
    + rewrite (Hone Hin). lia.
    + specialize (Hsum Hnin). cbn zeta in Hsum.
      pose proof (outcomes_positive (Z.to_nat num_rolls) dice Hdice s) as Hpos.
      destruct (is_prime _); [destruct Hsum as (_ & ? & _)|]; lia.
Qed.

Lemma play_turn_progress (strategy0 strategy1 : strategy) score0 score1 player s :
  valid_strategy strategy0 -> valid_strategy strategy1 ->
  score0 < 100 -> score1 < 100 ->
  exists (fuel0 : nat) score0' score1' s',
    (forall fuel : nat, (fuel0 <= fuel)%nat ->
       play_turn four_sided six_sided fuel strategy0 strategy1
         score0 score1 player s = Returns (score0', score1', s'))
    /\ (score0 + score1 < score0' + score1' \/ (player <> 0 /\ player <> 1)).
Proof.
  intros Hs0 Hs1 H0 H1. unfold play_turn.
  destruct (player =? 0) eqn:Hp0; [|destruct (player =? 1) eqn:Hp1].
  - destruct (Hs0 score0 score1) as (n & -> & Hn).
    destruct (take_turn_returns n score1
                (select_dice four_sided six_sided score0 score1) s
                (select_dice_positive _ _) Hn H1)
      as (fuel0 & r & s' & Hturn & Hr & Hzero).
    set (score1' := if r =? 0 then score1 + n else score1).
    assert (Hsum : score0 + score1 < (score0 + r) + score1').
    { unfold score1'. destruct (r =? 0) eqn:Hr0; lia. }
    destruct (is_swap (score0 + r) score1') eqn:Hswap.
    + exists fuel0, score1', (score0 + r), s'. split; [|lia].
      intros fuel Hfuel. unfold mbind, run_bind. rewrite (Hturn fuel Hfuel).
      fold score1'. by rewrite Hswap.
    + exists fuel0, (score0 + r), score1', s'. split; [|lia].
      intros fuel Hfuel. unfold mbind, run_bind. rewrite (Hturn fuel Hfuel).
      fold score1'. by rewrite Hswap.
  - destruct (Hs1 score1 score0) as (n & -> & Hn).
    destruct (take_turn_returns n score0
                (select_dice four_sided six_sided score1 score0) s
                (select_dice_positive _ _) Hn H0)
      as (fuel0 & r & s' & Hturn & Hr & Hzero).
    set (score0' := if r =? 0 then score0 + n else score0).
    assert (Hsum : score0 + score1 < score0' + (score1 + r)).
    { unfold score0'. destruct (r =? 0) eqn:Hr0; lia. }
    destruct (is_swap score0' (score1 + r)) eqn:Hswap.
    + exists fuel0, (score1 + r), score0', s'. split; [|lia].
      intros fuel Hfuel. unfold mbind, run_bind. rewrite (Hturn fuel Hfuel).
      fold score0'. by rewrite Hswap.
    + exists fuel0, score0', (score1 + r), s'. split; [|lia].
      intros fuel Hfuel. unfold mbind, run_bind. rewrite (Hturn fuel Hfuel).
      fold score0'. by rewrite Hswap.
  - destruct (is_swap score0 score1) eqn:Hswap.
    + exists 0%nat, score1, score0, s. split; [|lia].
      intros fuel _. unfold mbind, run_bind. by rewrite Hswap.
    + exists 0%nat, score0, score1, s. split; [|lia].
      intros fuel _. unfold mbind, run_bind. by rewrite Hswap.
Qed.

Lemma play_loop_ends (strategy0 strategy1 : strategy) goal :
  valid_strategy strategy0 -> valid_strategy strategy1 -> goal <= 100 ->
  forall (n : nat) score0 score1 player s,
    player = 0 \/ player = 1 ->
    (Z.to_nat (2 * goal - score0 - score1) <= n)%nat ->
    exists (fuel0 : nat) final0 final1 s',
      (forall fuel : nat, (fuel0 <= fuel)%nat ->
         play_loop four_sided six_sided fuel strategy0 strategy1
           score0 score1 goal player s = Returns (final0, final1, s'))
      /\ (goal <= final0 \/ goal <= final1)
      /\ score0 + score1 <= final0 + final1.
Proof.
  intros Hs0 Hs1 Hgoal. induction n as [|n IH];
    intros score0 score1 player s Hplayer Hn.
  - exists 0%nat, score0, score1, s. split; [|lia].
    intros fuel _. destruct fuel; cbn [play_loop];
      (destruct ((score0 <? goal) && (score1 <? goal)) eqn:Hcond; [|done]);
      apply andb_true_iff in Hcond; lia.
  - destruct ((score0 <? goal) && (score1 <? goal)) eqn:Hcond.
    + apply andb_true_iff in Hcond. destruct Hcond as [H0 H1].
      apply Z.ltb_lt in H0, H1.
      destruct (play_turn_progress strategy0 strategy1 score0 score1 player s
                  Hs0 Hs1 ltac:(lia) ltac:(lia))
        as (fuel1 & score0' & score1' & s' & Hturn & Hsum).
      destruct Hsum as [Hsum|Hbad]; [|lia].
      destruct (IH score0' score1' (other player) s'
                  ltac:(unfold other; lia) ltac:(lia))
        as (fuel2 & final0 & final1 & s'' & Hloop & Hwin & Hle).
      exists (S (Nat.max fuel1 fuel2)), final0, final1, s''.
      split; [|lia]. intros fuel Hfuel.
      destruct fuel as [|fuel]; [lia|]. cbn [play_loop].
      rewrite (proj2 (Z.ltb_lt _ _) H0), (proj2 (Z.ltb_lt _ _) H1).
      cbn [andb].
      rewrite (Hturn fuel) by lia. unfold mbind, run_bind.
      apply Hloop. lia.
    + exists 0%nat, score0, score1, s. split.
      * intros fuel _. destruct fuel; cbn [play_loop]; by rewrite Hcond.
      * apply andb_false_iff in Hcond. rewrite !Z.ltb_ge in Hcond. lia.
Qed.

(** With strategies that always answer with 0 to 10 rolls, dice that never
    show less than 1 and a goal of at most 100, the game ends: [play]
    returns, and one of the final scores has reached the goal. *)
Theorem play_ends_with_a_score_at_goal (strategy0 strategy1 : strategy)
    score0 score1 goal s :
  valid_strategy strategy0 -> valid_strategy strategy1 -> goal <= 100 ->
  exists (fuel0 : nat) final0 final1 s',
    (forall fuel : nat, (fuel0 <= fuel)%nat ->
       play four_sided six_sided fuel strategy0 strategy1 score0 score1 goal s
       = Returns (final0, final1, s'))
    /\ (goal <= final0 \/ goal <= final1)
    /\ score0 + score1 <= final0 + final1.
Proof.
  intros Hs0 Hs1 Hgoal. unfold play.
  apply (play_loop_ends strategy0 strategy1 goal Hs0 Hs1 Hgoal
           (Z.to_nat (2 * goal - score0 - score1))); [by left|lia].
Qed.

End HogPlay.

Lemma always_roll_valid n : (0 <= n <= 10)%Z -> valid_strategy (always_roll n).
Proof. intros Hn score opponent_score. exists n. by split. Qed.

Lemma final_strategy_valid (fuel : nat) :
  2 <= fuel -> valid_strategy (final_strategy fuel).
Proof.
  intros Hfuel score opponent_score.
  destruct (final_strategy_spec score opponent_score) as (r & Hr & Hrun).
  exists r. split; [by apply Hrun|lia].
Qed.

Lemma threes_positive : positive_die threes.
Proof. intros s. simpl. lia. Qed.

Lemma play_ends_with_a_score_at_goal_witness :
  exists (fuel0 : nat) final0 final1 s',
    (forall fuel : nat, fuel0 <= fuel ->
       play threes threes fuel (final_strategy 2) (always_roll 5) 0 0 100 0
       = Returns (final0, final1, s'))
    /\ (100 <= final0 \/ 100 <= final1)%Z
    /\ (0 + 0 <= final0 + final1)%Z.
Proof.
  apply (play_ends_with_a_score_at_goal nat threes threes
           threes_positive threes_positive (final_strategy 2) (always_roll 5)
           0 0 100 0).
  - apply final_strategy_valid. lia.
  - apply always_roll_valid. lia.
  - lia.
Defined.
